(** * Playback engine of the graph-search visualiser

    A shallow embedding of the [Graph] component
    (src/components/Graph.tsx, and its fixed-size twin that draws at 900x700
    with an active stroke width of 10 and has no resize handler).

    The component keeps its playback position in refs and React state, and
    mutates an SVG group through d3 selections.  The embedding keeps

    - the props of one run ([GraphProps]): graph data, path sequence,
      algorithm name, start and goal labels, presence of the completion
      callback;
    - the mutable state ([State]): [gRef] (the SVG group and its children),
      [dimensions], [currentStep], [isComplete], [isPaused], [animationRef]
      (the armed interval together with what its callback closed over),
      [currentIndexRef], and a counter of completion-callback invocations;
    - every function of the component as a function on [State].

    Geometry (cx, cy, x1 .. y2, radius, the text elements) is not kept: it is
    floating point, nothing in the controller reads it back, and two scenes
    that are "identical up to scale" are exactly two scenes with the same
    element identifiers and the same style attributes. *)

From Stdlib Require Import ZArith Ascii String.
From stdpp Require Import base decidable option list strings.

Local Open Scope Z_scope.
Local Open Scope nat_scope.

(** ** Data model (src/types/graph.ts) *)

Inductive Color : Set := white | red | green | black.

#[global] Instance Color_eq_dec : EqDecision Color.
Proof. solve_decision. Defined.

Record Node : Set := { index : nat; label : string }.

Record Link : Set := { source : nat; target : nat }.

Record GraphData : Set := { nodes : list Node; links : list Link }.

Record Dimensions : Set := { width : Z; height : Z }.

(** The props of one run.  [startNode] and [goalNode] are optional props
    ([None] is [undefined]); [onAnimationComplete] records whether the host
    supplied a callback. *)
Record GraphProps : Set := {
  data : GraphData;
  paths : list (string * string);
  algorithm : string;
  startNode : option string;
  goalNode : option string;
  onAnimationComplete : bool
}.

(** ** The scene: children of the SVG group, in document order *)

Record LineEl : Set := {
  line_source : nat;        (* id = line-<source>-<target> *)
  line_target : nat;
  stroke : Color;
  stroke_width : Z
}.

Record CircleEl : Set := {
  circle_index : nat;       (* id = circle-<index> *)
  data_label : string;
  fill : Color
}.

Record Scene : Set := { lines : list LineEl; circles : list CircleEl }.

(** ** Component state *)

(** An armed interval.  Its callback [animate] is a closure created by
    [startAnimation]; it sees the [isPaused] and [dimensions] of the render
    that created it. *)
Record Timer : Set := { t_isPaused : bool; t_dimensions : Dimensions }.

Record State : Set := {
  gRef : option Scene;
  dimensions : Dimensions;
  currentStep : option string;
  isComplete : bool;
  isPaused : bool;
  animationRef : option Timer;
  currentIndexRef : nat;
  completeCalls : nat
}.

Definition set_gRef (g : option Scene) (st : State) : State :=
  {| gRef := g; dimensions := dimensions st; currentStep := currentStep st;
     isComplete := isComplete st; isPaused := isPaused st;
     animationRef := animationRef st; currentIndexRef := currentIndexRef st;
     completeCalls := completeCalls st |}.

Definition setDimensions (d : Dimensions) (st : State) : State :=
  {| gRef := gRef st; dimensions := d; currentStep := currentStep st;
     isComplete := isComplete st; isPaused := isPaused st;
     animationRef := animationRef st; currentIndexRef := currentIndexRef st;
     completeCalls := completeCalls st |}.

Definition setCurrentStep (s : option string) (st : State) : State :=
  {| gRef := gRef st; dimensions := dimensions st; currentStep := s;
     isComplete := isComplete st; isPaused := isPaused st;
     animationRef := animationRef st; currentIndexRef := currentIndexRef st;
     completeCalls := completeCalls st |}.

Definition setIsComplete (b : bool) (st : State) : State :=
  {| gRef := gRef st; dimensions := dimensions st; currentStep := currentStep st;
     isComplete := b; isPaused := isPaused st;
     animationRef := animationRef st; currentIndexRef := currentIndexRef st;
     completeCalls := completeCalls st |}.

Definition setIsPaused (b : bool) (st : State) : State :=
  {| gRef := gRef st; dimensions := dimensions st; currentStep := currentStep st;
     isComplete := isComplete st; isPaused := b;
     animationRef := animationRef st; currentIndexRef := currentIndexRef st;
     completeCalls := completeCalls st |}.

Definition set_animationRef (t : option Timer) (st : State) : State :=
  {| gRef := gRef st; dimensions := dimensions st; currentStep := currentStep st;
     isComplete := isComplete st; isPaused := isPaused st;
     animationRef := t; currentIndexRef := currentIndexRef st;
     completeCalls := completeCalls st |}.

Definition set_currentIndexRef (i : nat) (st : State) : State :=
  {| gRef := gRef st; dimensions := dimensions st; currentStep := currentStep st;
     isComplete := isComplete st; isPaused := isPaused st;
     animationRef := animationRef st; currentIndexRef := i;
     completeCalls := completeCalls st |}.

(** [if (onCompleteRef.current) onCompleteRef.current()] *)
Definition call_onComplete (P : GraphProps) (st : State) : State :=
  {| gRef := gRef st; dimensions := dimensions st; currentStep := currentStep st;
     isComplete := isComplete st; isPaused := isPaused st;
     animationRef := animationRef st; currentIndexRef := currentIndexRef st;
     completeCalls :=
       if onAnimationComplete P then S (completeCalls st) else completeCalls st |}.

(** Apply a d3 update to the group, when there is one. *)
Definition with_g (f : Scene → Scene) (st : State) : State :=
  match gRef st with
  | Some g => set_gRef (Some (f g)) st
  | None => st
  end.

(** ** d3 selections *)

(** [g.select('#line-s-t')] followed by attribute updates: the first element
    in document order that carries the id, nothing when there is none. *)
Fixpoint select_line (s t : nat) (f : LineEl → LineEl) (ls : list LineEl)
  : list LineEl :=
  match ls with
  | [] => []
  | l :: ls' =>
      if decide (line_source l = s ∧ line_target l = t)
      then f l :: ls'
      else l :: select_line s t f ls'
  end.

(** [g.select('#circle-i')] followed by attribute updates. *)
Fixpoint select_circle (i : nat) (f : CircleEl → CircleEl) (cs : list CircleEl)
  : list CircleEl :=
  match cs with
  | [] => []
  | c :: cs' =>
      if decide (circle_index c = i)
      then f c :: cs'
      else c :: select_circle i f cs'
  end.

Definition attr_stroke (c : Color) (w : Z) (l : LineEl) : LineEl :=
  {| line_source := line_source l; line_target := line_target l;
     stroke := c; stroke_width := w |}.

Definition attr_fill (c : Color) (e : CircleEl) : CircleEl :=
  {| circle_index := circle_index e; data_label := data_label e; fill := c |}.

Definition on_lines (f : list LineEl → list LineEl) (g : Scene) : Scene :=
  {| lines := f (lines g); circles := circles g |}.

Definition on_circles (f : list CircleEl → list CircleEl) (g : Scene) : Scene :=
  {| lines := lines g; circles := f (circles g) |}.

(** [label === startNode], for an optional prop. *)
Definition label_is (l : string) (o : option string) : bool :=
  match o with
  | Some s => bool_decide (l = s)
  | None => false
  end.

(** [data.nodes.find(node => node.label === l)] *)
Definition find_node (P : GraphProps) (l : string) : option Node :=
  snd <$> list_find (λ n, label n = l) (nodes (data P)).

(** [dimensions.width <= 500 ? 5 : 10] *)
Definition active_width (d : Dimensions) : Z :=
  if (width d <=? 500)%Z then 5%Z else 10%Z.

(** ** The component's functions *)

Definition clearAnimation (st : State) : State :=
  match animationRef st with
  | Some _ => set_animationRef None st
  | None => st
  end.

(** The fill callback of [setInitialNodeColors], at position [i]. *)
Definition initial_fill (P : GraphProps) (i : nat) (l : string) : Color :=
  let hasBeenVisited :=
    existsb (λ p, bool_decide (snd p = l)) (take i (paths P)) in
  if label_is l (startNode P) then red
  else if label_is l (goalNode P) then green
  else if hasBeenVisited then red
  else white.

Definition setInitialNodeColors (P : GraphProps) (st : State) : State :=
  with_g (on_circles
            (map (λ c, attr_fill
                         (initial_fill P (currentIndexRef st) (data_label c)) c)))
         st.

(** The two selections at the end of both [resetVisualization]s:
    every circle white, then start and goal recoloured. *)
Definition reset_fill (P : GraphProps) (c : CircleEl) : CircleEl :=
  let c' := attr_fill white c in
  if label_is (data_label c') (startNode P) || label_is (data_label c') (goalNode P)
  then attr_fill (if label_is (data_label c') (startNode P) then red
                  else if label_is (data_label c') (goalNode P) then green
                  else white) c'
  else c'.

(** One link of [drawGraph].  [data.nodes[source]] is dereferenced for its
    coordinates; [None] is the TypeError raised when it is undefined. *)
Definition draw_link (P : GraphProps) (l : Link) : option LineEl :=
  _ ← nodes (data P) !! source l;
  _ ← nodes (data P) !! target l;
  Some {| line_source := source l; line_target := target l;
          stroke := black; stroke_width := 1%Z |}.

Definition draw_node (P : GraphProps) (n : Node) : CircleEl :=
  {| circle_index := index n; data_label := label n;
     fill := if label_is (label n) (startNode P) then red
             else if label_is (label n) (goalNode P) then green
             else white |}.

(** [drawGraph]: returns early without a group or without nodes; otherwise
    removes every child and draws the links, then the nodes. *)
Definition drawGraph (P : GraphProps) (st : State) : option State :=
  match gRef st with
  | None => Some st
  | Some _ =>
      match nodes (data P) with
      | [] => Some st
      | _ :: _ =>
          ls ← mapM (draw_link P) (links (data P));
          Some (set_gRef (Some {| lines := ls;
                                  circles := draw_node P <$> nodes (data P) |}) st)
      end
  end.

(** The de-highlight selection of [animate]: the edge of the first earlier
    step with the same source label, when the algorithm is not ["bfs"]. *)
Definition dehighlight (P : GraphProps) (i : nat) (sourceLabel : string)
    (ls : list LineEl) : list LineEl :=
  if bool_decide (algorithm P ≠ "bfs") then
    match fst <$> list_find (λ p, fst p = sourceLabel) (take i (paths P)) with
    | Some repeatedPathIndex =>
        match paths P !! repeatedPathIndex with
        | Some (prevSource, prevTarget) =>
            match find_node P prevSource, find_node P prevTarget with
            | Some prevSourceNode, Some prevTargetNode =>
                select_line (index prevSourceNode) (index prevTargetNode)
                            (attr_stroke black 1%Z) ls
            | _, _ => ls
            end
        | None => ls
        end
    | None => ls
    end
  else ls.

(** The part of [animate] that applies [paths[currentIndexRef.current]]. *)
Definition apply_step (P : GraphProps) (t : Timer) (st : State) : State :=
  match paths P !! currentIndexRef st with
  | Some (sourceLabel, targetLabel) =>
      match find_node P sourceLabel, find_node P targetLabel with
      | Some sourceNode, Some targetNode =>
          let st1 := with_g (on_lines
                       (dehighlight P (currentIndexRef st) sourceLabel)) st in
          let st2 := with_g (on_lines
                       (select_line (index sourceNode) (index targetNode)
                          (attr_stroke red (active_width (t_dimensions t))))) st1 in
          let st3 := with_g (on_circles
                       (select_circle (index targetNode) (attr_fill red))) st2 in
          setCurrentStep
            (Some ("From Node: " +:+ sourceLabel +:+ " to Node: " +:+ targetLabel))
            st3
      | _, _ => st
      end
  | None => st
  end.

(** The interval callback. [paths.length - 1] is -1 for an empty array. *)
Definition animate (P : GraphProps) (t : Timer) (st : State) : State :=
  if t_isPaused t then st
  else
    let st1 := apply_step P t st in
    if (Z.of_nat (length (paths P)) - 1 <=? Z.of_nat (currentIndexRef st1))%Z
    then call_onComplete P (clearAnimation (setIsComplete true st1))
    else set_currentIndexRef (S (currentIndexRef st1)) st1.

(** [startAnimation], as created by a render whose [isPaused] and
    [dimensions] are the two first arguments. *)
Definition startAnimation (P : GraphProps) (paused : bool) (d : Dimensions)
    (st : State) : State :=
  match gRef st, paths P with
  | None, _ => st
  | _, [] => st
  | Some _, _ :: _ =>
      let st1 := if decide (currentIndexRef st = 0)
                 then setInitialNodeColors P st else st in
      match animationRef st1 with
      | None =>
          set_animationRef (Some {| t_isPaused := paused; t_dimensions := d |}) st1
      | Some _ => st1
      end
  end.

(** [useEffect(() => { startAnimation(); return () => clearAnimation(); },
    [startAnimation])], when [startAnimation] has changed: the cleanup of the
    previous render, then the new [startAnimation]. *)
Definition startAnimation_effect (P : GraphProps) (st : State) : State :=
  startAnimation P (isPaused st) (dimensions st) (clearAnimation st).

(** The body of [togglePause] in the imperative handle. *)
Definition togglePause_handler (P : GraphProps) (st : State) : State :=
  let st1 := setIsPaused (negb (isPaused st)) st in
  if isPaused st then
    match animationRef st1 with
    | None => startAnimation P (isPaused st) (dimensions st) st1
    | Some _ => st1
    end
  else clearAnimation st1.

(** [togglePause] and the render it causes: [isPaused] has changed, it is a
    dependency of [startAnimation], so the effect above runs. *)
Definition togglePause (P : GraphProps) (st : State) : State :=
  startAnimation_effect P (togglePause_handler P st).

(** The body of [resetVisualization] in the imperative handle. *)
Definition resetVisualization_handler (P : GraphProps) (st : State) : State :=
  let st1 := clearAnimation st in
  let st2 := set_currentIndexRef 0 st1 in
  let st3 := setCurrentStep None st2 in
  let st4 := setIsComplete false st3 in
  let st5 := setIsPaused false st4 in
  let st6 := setInitialNodeColors P st5 in
  let st7 := with_g (on_lines (map (attr_stroke black 1%Z))) st6 in
  with_g (on_circles (map (reset_fill P))) st7.

(** [resetVisualization] and the render it causes: the effect on
    [startAnimation] runs only when [isPaused] has changed. *)
Definition resetVisualization (P : GraphProps) (st : State) : State :=
  let st' := resetVisualization_handler P st in
  if isPaused st then startAnimation_effect P st' else st'.

(** [calculateDimensions], from the container's [clientWidth] and the
    window's [innerWidth].  [Math.round(maxWidth * (700 / 900))] is the
    nearest integer to 7w/9, which is never a tie for an integer w. *)
Definition calculateDimensions (containerWidth innerWidth : Z) : Dimensions :=
  if (innerWidth <=? 768)%Z then
    let size := Z.min 500 containerWidth in
    {| width := size; height := size |}
  else
    let maxWidth := Z.min 900 containerWidth in
    {| width := maxWidth; height := ((14 * maxWidth + 9) / 18)%Z |}.

(** The effect that creates the group: [svg.selectAll('*').remove()], then a
    fresh, empty [g]. *)
Definition zoom_effect (st : State) : State :=
  set_gRef (Some {| lines := []; circles := [] |}) st.

(** A change of [dimensions]: cleanup of the animation effect, then the
    effects that depend on it, in source order. *)
Definition resize (P : GraphProps) (d : Dimensions) (st : State) : option State :=
  let st1 := clearAnimation (setDimensions d st) in
  st2 ← drawGraph P (zoom_effect st1);
  Some (startAnimation P (isPaused st2) (dimensions st2) st2).

(** The state of the hooks at the first render, and the mount effects. *)
Definition init_state : State :=
  {| gRef := None; dimensions := {| width := 900; height := 700 |};
     currentStep := None; isComplete := false; isPaused := false;
     animationRef := None; currentIndexRef := 0; completeCalls := 0 |}.

Definition mount (P : GraphProps) : option State :=
  st ← drawGraph P (zoom_effect init_state);
  Some (startAnimation P (isPaused st) (dimensions st) st).

(** A firing of the interval: nothing fires unless one is armed. *)
Definition tick (P : GraphProps) (st : State) : State :=
  match animationRef st with
  | Some t => animate P t st
  | None => st
  end.

(** ** Runs *)

Inductive Event : Set :=
| Tick
| TogglePause
| ResetVisualization
| Resize (d : Dimensions).

Definition step (P : GraphProps) (e : Event) (st : State) : option State :=
  match e with
  | Tick => Some (tick P st)
  | TogglePause => Some (togglePause P st)
  | ResetVisualization => Some (resetVisualization P st)
  | Resize d => resize P d st
  end.

Fixpoint run (P : GraphProps) (es : list Event) (st : State) : option State :=
  match es with
  | [] => Some st
  | e :: es' => st' ← step P e st; run P es' st'
  end.

Definition ticks (P : GraphProps) (n : nat) (st : State) : State :=
  Nat.iter n (tick P) st.

(** What [g.select('#line-s-t').attr('stroke')] reads. *)
Fixpoint line_stroke (s t : nat) (ls : list LineEl) : option Color :=
  match ls with
  | [] => None
  | l :: ls' =>
      if decide (line_source l = s ∧ line_target l = t)
      then Some (stroke l)
      else line_stroke s t ls'
  end.

(** What [g.select('#circle-i').attr('fill')] reads. *)
Fixpoint circle_fill (i : nat) (cs : list CircleEl) : option Color :=
  match cs with
  | [] => None
  | c :: cs' =>
      if decide (circle_index c = i) then Some (fill c) else circle_fill i cs'
  end.

(** The same two readings, on the group of a state. *)
Definition stroke_of (s t : nat) (st : State) : option Color :=
  g ← gRef st; line_stroke s t (lines g).

Definition fill_of (i : nat) (st : State) : option Color :=
  g ← gRef st; circle_fill i (circles g).

(** ** Reachable states *)

(** The states of one run: from the mounted component, by any sequence of
    interval firings, calls on the imperative handle and resizes. *)
Definition reachable (P : GraphProps) (st : State) : Prop :=
  ∃ st0 es, mount P = Some st0 ∧ run P es st0 = Some st.

Definition is_reset (e : Event) : bool :=
  match e with ResetVisualization => true | _ => false end.


(** The start of a run: a non-empty path sequence, the index at 0, nothing
    completed or paused, and an interval armed by [startAnimation]. *)
Definition run_start (P : GraphProps) (st : State) : Prop :=
  paths P ≠ [] ∧ currentIndexRef st = 0 ∧
  isComplete st = false ∧ isPaused st = false ∧ completeCalls st = 0 ∧
  ∃ t, animationRef st = Some t ∧ t_isPaused t = false.

(** The number of steps applied so far: the index counts the steps before
    it, and the step at the index has been applied once the run is complete. *)
Definition steps_applied (st : State) : nat :=
  currentIndexRef st + (if isComplete st then 1 else 0).

Definition playback_inv (P : GraphProps) (st : State) : Prop :=
  (paths P = [] →
     animationRef st = None ∧ isComplete st = false ∧
     currentIndexRef st = 0 ∧ completeCalls st = 0) ∧
  (paths P ≠ [] →
     currentIndexRef st < length (paths P) ∧
     (isComplete st = true → S (currentIndexRef st) = length (paths P))) ∧
  (∀ t, animationRef st = Some t →
     t_isPaused t = isPaused st ∧ t_dimensions t = dimensions st) ∧
  is_Some (gRef st).


(** The pair of node indices that the de-highlight selection of [animate]
    addresses at position [i], if it makes one. *)
Definition prev_key (P : GraphProps) (i : nat) (sourceLabel : string)
  : option (nat * nat) :=
  if bool_decide (algorithm P ≠ "bfs") then
    jp ← list_find (λ p, fst p = sourceLabel) (take i (paths P));
    prev ← paths P !! fst jp;
    a ← find_node P (fst prev);
    b ← find_node P (snd prev);
    Some (index a, index b)
  else None.

(** A line in the neutral style, a circle in its initial colour. *)
Definition neutral (l : LineEl) : Prop :=
  stroke l = black ∧ stroke_width l = 1%Z.

Definition initial_colour (P : GraphProps) (c : CircleEl) : Prop :=
  fill c = if label_is (data_label c) (startNode P) then red
           else if label_is (data_label c) (goalNode P) then green
           else white.

(** Every circle that carries the start label is filled with the start
    colour. *)
Definition start_red (P : GraphProps) (g : Scene) : Prop :=
  Forall (λ c, label_is (data_label c) (startNode P) = true → fill c = red)
         (circles g).

Definition start_kept (P : GraphProps) (st : State) : Prop :=
  ∀ g, gRef st = Some g → start_red P g.

(** Every link of the graph data names two positions of the node array. *)
Definition links_in_range (P : GraphProps) : Prop :=
  Forall (λ l, source l < length (nodes (data P)) ∧
               target l < length (nodes (data P))) (links (data P)).

(** ** Scenarios *)

Definition nd (i : nat) (l : string) : Node := {| index := i; label := l |}.
Definition lk (s t : nat) : Link := {| source := s; target := t |}.

(** The two-step run of the specification: A -> B -> C, depth first. *)
Definition scenario_chain : GraphProps :=
  {| data := {| nodes := [nd 0 "A"; nd 1 "B"; nd 2 "C"];
                links := [lk 0 1; lk 1 2] |};
     paths := [("A", "B"); ("B", "C")];
     algorithm := "dfs"; startNode := Some "A"; goalNode := Some "C";
     onAnimationComplete := true |}.

(** No search result yet: the host passes an empty path sequence. *)
Definition scenario_empty : GraphProps :=
  {| data := {| nodes := [nd 0 "A"; nd 1 "B"; nd 2 "C"];
                links := [lk 0 1; lk 1 2] |};
     paths := [];
     algorithm := "dfs"; startNode := Some "A"; goalNode := Some "C";
     onAnimationComplete := true |}.

(** A single step whose target is neither start nor goal. *)
Definition scenario_single : GraphProps :=
  {| data := {| nodes := [nd 0 "A"; nd 1 "B"; nd 2 "C"];
                links := [lk 0 1; lk 1 2] |};
     paths := [("A", "B")];
     algorithm := "dfs"; startNode := Some "A"; goalNode := Some "C";
     onAnimationComplete := true |}.

(** Three steps out of the same source. *)
Definition scenario_fan : GraphProps :=
  {| data := {| nodes := [nd 0 "A"; nd 1 "B"; nd 2 "C"; nd 3 "D"];
                links := [lk 0 1; lk 0 2; lk 0 3] |};
     paths := [("A", "B"); ("A", "C"); ("A", "D")];
     algorithm := "dfs"; startNode := Some "A"; goalNode := Some "D";
     onAnimationComplete := true |}.

(** A step that names a label the graph does not have. *)
Definition scenario_missing : GraphProps :=
  {| data := {| nodes := [nd 0 "A"; nd 1 "B"; nd 2 "C"];
                links := [lk 0 1; lk 1 2] |};
     paths := [("A", "Z")];
     algorithm := "dfs"; startNode := Some "A"; goalNode := Some "C";
     onAnimationComplete := true |}.

(** The edge between A and C is stored as (2, 0); the search walks it from
    A to C. *)
Definition scenario_reversed : GraphProps :=
  {| data := {| nodes := [nd 0 "A"; nd 1 "B"; nd 2 "C"];
                links := [lk 0 1; lk 2 0] |};
     paths := [("A", "B"); ("A", "C")];
     algorithm := "dfs"; startNode := Some "A"; goalNode := Some "C";
     onAnimationComplete := true |}.

(** ** The rest of the component *)

(** The [resetVisualization] that the component defines with [useCallback]
    (it is not the one exposed on the handle): it returns at once without a
    group, and does not call [setInitialNodeColors]. *)
Definition resetVisualization_callback (P : GraphProps) (st : State) : State :=
  match gRef st with
  | None => st
  | Some _ =>
      let st1 := clearAnimation st in
      let st2 := set_currentIndexRef 0 st1 in
      let st3 := setCurrentStep None st2 in
      let st4 := setIsComplete false st3 in
      let st5 := setIsPaused false st4 in
      let st6 := with_g (on_circles (map (reset_fill P))) st5 in
      with_g (on_lines (map (attr_stroke black 1%Z))) st6
  end.

(** What the component renders under the drawing: the step text when there
    is one, and under it "Goal reached!" when the run is complete. *)
Definition shows_step (st : State) : option string :=
  match currentStep st with
  | Some "" => None
  | o => o
  end.

Definition shows_goal_reached (st : State) : bool :=
  bool_decide (is_Some (shows_step st)) && isComplete st.

(** The identifiers of the elements of a scene: the id of each line, the id
    and the label attribute of each circle. *)
Definition line_ids (g : Scene) : list (nat * nat) :=
  (λ l, (line_source l, line_target l)) <$> lines g.

Definition circle_ids (g : Scene) : list (nat * string) :=
  (λ c, (circle_index c, data_label c)) <$> circles g.

(** The scene as [drawGraph] leaves it: empty without nodes (it returns
    before drawing), otherwise one neutral line per link and one circle per
    node in its initial colour. *)
Definition drawn_scene (P : GraphProps) : Scene :=
  match nodes (data P) with
  | [] => {| lines := []; circles := [] |}
  | _ :: _ =>
      {| lines := (λ l, {| line_source := source l; line_target := target l;
                           stroke := black; stroke_width := 1%Z |})
                    <$> links (data P);
         circles := draw_node P <$> nodes (data P) |}
  end.

(** Step [p] resolves, and its target node has index [i]. *)
Definition targets (P : GraphProps) (i : nat) (p : string * string) : bool :=
  match find_node P (fst p), find_node P (snd p) with
  | Some _, Some tN => bool_decide (index tN = i)
  | _, _ => false
  end.

(** Step [p] resolves to the pair of indices (s, d). *)
Definition walks (P : GraphProps) (s d : nat) (p : string * string) : bool :=
  match find_node P (fst p), find_node P (snd p) with
  | Some sN, Some tN => bool_decide (index sN = s ∧ index tN = d)
  | _, _ => false
  end.

(** Step [p] resolves. *)
Definition resolves (P : GraphProps) (p : string * string) : bool :=
  match find_node P (fst p), find_node P (snd p) with
  | Some _, Some _ => true
  | _, _ => false
  end.

(** The fan again, breadth first. *)
Definition scenario_bfs : GraphProps :=
  {| data := {| nodes := [nd 0 "A"; nd 1 "B"; nd 2 "C"; nd 3 "D"];
                links := [lk 0 1; lk 0 2; lk 0 3] |};
     paths := [("A", "B"); ("A", "C"); ("A", "D")];
     algorithm := "bfs"; startNode := Some "A"; goalNode := Some "D";
     onAnimationComplete := true |}.

(** ** The table of iteration counts

    The fixed-size twin of the component, and the [StatusTable] component,
    print each key of [iterationCounts] as
    [param.split('_').map(word => word.charAt(0).toUpperCase() +
    word.slice(1)).join(' ')].  Strings are sequences of ASCII characters
    here; on those [toUpperCase] changes the lower-case letters only. *)

Definition ascii_only (s : string) : Prop :=
  Forall (λ c, Ascii.nat_of_ascii c < 128) (list_ascii_of_string s).

(** [c.toUpperCase()] on an ASCII character. *)
Definition toUpperCase (c : Ascii.ascii) : Ascii.ascii :=
  let n := Ascii.nat_of_ascii c in
  if (97 <=? n) && (n <=? 122) then Ascii.ascii_of_nat (n - 32) else c.

(** [s.split('_')] *)
Fixpoint split_underscore (s : string) : list string :=
  match s with
  | EmptyString => [EmptyString]
  | String c r =>
      if decide (c = "_"%char) then EmptyString :: split_underscore r
      else match split_underscore r with
           | w :: ws => String c w :: ws
           | [] => [String c EmptyString]
           end
  end.

(** [word.charAt(0).toUpperCase() + word.slice(1)] *)
Definition capitalize (word : string) : string :=
  match word with
  | EmptyString => EmptyString
  | String c r => String (toUpperCase c) r
  end.

Definition formatParam (param : string) : string :=
  String.concat " " (capitalize <$> split_underscore param).

(** The same text in one pass: an underscore becomes a space, the character
    at the start of a word is upper-cased, every other character is kept. *)
Fixpoint format_scan (start : bool) (s : string) : string :=
  match s with
  | EmptyString => EmptyString
  | String c r =>
      if decide (c = "_"%char) then String " " (format_scan true r)
      else String (if start then toUpperCase c else c) (format_scan false r)
  end.

(** ** The hosting view (App)

    The part of the host that drives the component: its state, the handlers
    behind the buttons, and the renders of the component that follow a change
    of its props.  The fields that the host names like the component's are
    prefixed with [app_].  [pending] counts the [runSearch] promises that
    are not settled yet; the requests themselves (and the loading of another
    graph) are outside. *)

Record AppState : Set := {
  graphData : GraphData;
  searchResult : option (list (string * string));   (* the paths of the result *)
  speed : Z;
  app_algorithm : string;
  app_startNode : string;
  app_goalNode : string;
  app_isPaused : bool;
  isSearching : bool;
  pending : nat;
  graph : State
}.

(** The props the host passes:
    [paths={searchResult?.paths ?? []}], [onAnimationComplete] always given. *)
Definition graph_props (h : AppState) : GraphProps :=
  {| data := graphData h;
     paths := default [] (searchResult h);
     algorithm := app_algorithm h;
     startNode := Some (app_startNode h);
     goalNode := Some (app_goalNode h);
     onAnimationComplete := true |}.

Definition set_graph (g : State) (h : AppState) : AppState :=
  {| graphData := graphData h; searchResult := searchResult h;
     speed := speed h; app_algorithm := app_algorithm h;
     app_startNode := app_startNode h; app_goalNode := app_goalNode h;
     app_isPaused := app_isPaused h; isSearching := isSearching h;
     pending := pending h; graph := g |}.

Definition setIsSearching (b : bool) (h : AppState) : AppState :=
  {| graphData := graphData h; searchResult := searchResult h;
     speed := speed h; app_algorithm := app_algorithm h;
     app_startNode := app_startNode h; app_goalNode := app_goalNode h;
     app_isPaused := app_isPaused h; isSearching := b;
     pending := pending h; graph := graph h |}.

Definition set_pending (n : nat) (h : AppState) : AppState :=
  {| graphData := graphData h; searchResult := searchResult h;
     speed := speed h; app_algorithm := app_algorithm h;
     app_startNode := app_startNode h; app_goalNode := app_goalNode h;
     app_isPaused := app_isPaused h; isSearching := isSearching h;
     pending := n; graph := graph h |}.

(** The render of the component after a change of [paths], [algorithm] or
    [speed]: they are dependencies of [startAnimation], whose effect runs. *)
Definition render_paths (h : AppState) : AppState :=
  set_graph (startAnimation_effect (graph_props h) (graph h)) h.

(** A render of the host that changes no state the props are computed from:
    with a result the props are the same objects and no effect of the
    component runs; without one, [?? []] is a fresh array, [paths] has
    changed, and the effect runs. *)
Definition render_host (h : AppState) : AppState :=
  match searchResult h with
  | None => render_paths h
  | Some _ => h
  end.

(** The render of the component after a change of [startNode] or [goalNode]:
    they are dependencies of [drawGraph] too, whose effect runs first. *)
Definition render_labels (h : AppState) : option AppState :=
  let P := graph_props h in
  st ← drawGraph P (clearAnimation (graph h));
  Some (set_graph (startAnimation P (isPaused st) (dimensions st) st) h).

(** [handleAnimationComplete] *)
Definition handleAnimationComplete (h : AppState) : AppState :=
  setIsSearching false h.

(** [resetSearch]: three state updates and the call of
    [resetVisualization] on the handle, with the props of the current
    render. *)
Definition resetSearch (h : AppState) : AppState :=
  {| graphData := graphData h; searchResult := None;
     speed := speed h; app_algorithm := app_algorithm h;
     app_startNode := app_startNode h; app_goalNode := app_goalNode h;
     app_isPaused := false; isSearching := false;
     pending := pending h;
     graph := resetVisualization_handler (graph_props h) (graph h) |}.

(** [handleSearch] up to its [await], behind a button that is disabled while
    searching or without a start or goal label. *)
Definition handleSearch (h : AppState) : AppState :=
  if isSearching h || bool_decide (app_startNode h = "")
     || bool_decide (app_goalNode h = "")
  then h
  else render_paths
         (set_pending (S (pending h)) (setIsSearching true (resetSearch h))).

(** [handleSearch] after its [await], when the request succeeds. *)
Definition searchResolved (r : list (string * string)) (h : AppState) : AppState :=
  match pending h with
  | 0 => h
  | S n =>
      render_paths
        {| graphData := graphData h; searchResult := Some r;
           speed := speed h; app_algorithm := app_algorithm h;
           app_startNode := app_startNode h; app_goalNode := app_goalNode h;
           app_isPaused := app_isPaused h; isSearching := isSearching h;
           pending := n; graph := graph h |}
  end.

(** [handleSearch] after its [await], when the request fails. *)
Definition searchRejected (h : AppState) : AppState :=
  match pending h with
  | 0 => h
  | S n => render_host (set_pending n (setIsSearching false h))
  end.

(** [handlePauseToggle], behind a button that is disabled unless searching.
    The render that follows is the one [togglePause] already accounts for. *)
Definition handlePauseToggle (h : AppState) : AppState :=
  if isSearching h then
    {| graphData := graphData h; searchResult := searchResult h;
       speed := speed h; app_algorithm := app_algorithm h;
       app_startNode := app_startNode h; app_goalNode := app_goalNode h;
       app_isPaused := negb (app_isPaused h); isSearching := isSearching h;
       pending := pending h;
       graph := togglePause (graph_props h) (graph h) |}
  else h.

(** The algorithm select: [setAlgorithm(value); resetSearch()]. *)
Definition selectAlgorithm (a : string) (h : AppState) : AppState :=
  let h1 := resetSearch h in
  render_paths
    {| graphData := graphData h1; searchResult := searchResult h1;
       speed := speed h1; app_algorithm := a;
       app_startNode := app_startNode h1; app_goalNode := app_goalNode h1;
       app_isPaused := app_isPaused h1; isSearching := isSearching h1;
       pending := pending h1; graph := graph h1 |}.

(** The speed slider: [setSpeed(2100 - value[0])]. *)
Definition slideSpeed (v : Z) (h : AppState) : AppState :=
  render_paths
    {| graphData := graphData h; searchResult := searchResult h;
       speed := (2100 - v)%Z; app_algorithm := app_algorithm h;
       app_startNode := app_startNode h; app_goalNode := app_goalNode h;
       app_isPaused := app_isPaused h; isSearching := isSearching h;
       pending := pending h; graph := graph h |}.

(** The start and goal inputs: [setStartNode(e.target.value)]. *)
Definition inputStartNode (s : string) (h : AppState) : option AppState :=
  render_labels
    {| graphData := graphData h; searchResult := searchResult h;
       speed := speed h; app_algorithm := app_algorithm h;
       app_startNode := s; app_goalNode := app_goalNode h;
       app_isPaused := app_isPaused h; isSearching := isSearching h;
       pending := pending h; graph := graph h |}.

Definition inputGoalNode (s : string) (h : AppState) : option AppState :=
  render_labels
    {| graphData := graphData h; searchResult := searchResult h;
       speed := speed h; app_algorithm := app_algorithm h;
       app_startNode := app_startNode h; app_goalNode := s;
       app_isPaused := app_isPaused h; isSearching := isSearching h;
       pending := pending h; graph := graph h |}.

(** A firing of the component's interval, and [handleAnimationComplete] when
    the firing invokes the callback. *)
Definition intervalFires (h : AppState) : AppState :=
  let g := tick (graph_props h) (graph h) in
  let h' := set_graph g h in
  if completeCalls g =? completeCalls (graph h) then h'
  else render_host (handleAnimationComplete h').

Definition windowResize (d : Dimensions) (h : AppState) : option AppState :=
  g ← resize (graph_props h) d (graph h); Some (set_graph g h).

Inductive AppEvent : Set :=
| RunSearchClick
| SearchResolved (r : list (string * string))
| SearchRejected
| PauseClick
| AlgorithmSelect (a : string)
| SpeedSlide (v : Z)
| StartInput (s : string)
| GoalInput (s : string)
| IntervalFires
| WindowResize (d : Dimensions).

Definition app_step (e : AppEvent) (h : AppState) : option AppState :=
  match e with
  | RunSearchClick => Some (handleSearch h)
  | SearchResolved r => Some (searchResolved r h)
  | SearchRejected => Some (searchRejected h)
  | PauseClick => Some (handlePauseToggle h)
  | AlgorithmSelect a => Some (selectAlgorithm a h)
  | SpeedSlide v => Some (slideSpeed v h)
  | StartInput s => inputStartNode s h
  | GoalInput s => inputGoalNode s h
  | IntervalFires => Some (intervalFires h)
  | WindowResize d => windowResize d h
  end.

Fixpoint app_run (es : list AppEvent) (h : AppState) : option AppState :=
  match es with
  | [] => Some h
  | e :: es' => h' ← app_step e h; app_run es' h'
  end.

(** The host with its component just mounted: no result, nothing pending. *)
Definition app_mounted (h : AppState) : Prop :=
  mount (graph_props h) = Some (graph h) ∧
  searchResult h = None ∧ app_isPaused h = false ∧
  isSearching h = false ∧ pending h = 0.

Definition app_reachable (h : AppState) : Prop :=
  ∃ h0 es, app_mounted h0 ∧ app_run es h0 = Some h.

(** What holds of the host in every reachable state. *)
Definition app_inv (h : AppState) : Prop :=
  app_isPaused h = isPaused (graph h) ∧
  (isComplete (graph h) = true → isSearching h = false) ∧
  is_Some (gRef (graph h)).

(** The events that neither settle a request nor reset the search. *)
Definition keeps_search (e : AppEvent) : bool :=
  match e with
  | SearchResolved _ | SearchRejected | AlgorithmSelect _ => false
  | _ => true
  end.

(** A host in front of the fan graph, A to D, depth first. *)
Definition app_scenario : AppState :=
  {| graphData := {| nodes := [nd 0 "A"; nd 1 "B"; nd 2 "C"; nd 3 "D"];
                     links := [lk 0 1; lk 0 2; lk 0 3] |};
     searchResult := None; speed := 1000%Z; app_algorithm := "dfs";
     app_startNode := "A"; app_goalNode := "D";
     app_isPaused := false; isSearching := false; pending := 0;
     graph :=
       {| gRef := Some
            {| lines := [ {| line_source := 0; line_target := 1;
                             stroke := black; stroke_width := 1 |};
                          {| line_source := 0; line_target := 2;
                             stroke := black; stroke_width := 1 |};
                          {| line_source := 0; line_target := 3;
                             stroke := black; stroke_width := 1 |} ];
               circles := [ {| circle_index := 0; data_label := "A"; fill := red |};
                            {| circle_index := 1; data_label := "B"; fill := white |};
                            {| circle_index := 2; data_label := "C"; fill := white |};
                            {| circle_index := 3; data_label := "D"; fill := green |} ] |};
          dimensions := {| width := 900; height := 700 |};
          currentStep := None; isComplete := false; isPaused := false;
          animationRef := None; currentIndexRef := 0; completeCalls := 0 |} |}.

(** The events of a user who only pauses and resumes while a run plays. *)
Definition plays (e : AppEvent) : bool :=
  match e with
  | IntervalFires | PauseClick => true
  | _ => false
  end.

(** The text [animate] sets for a step, and the text left by a sequence of
    steps: that of the last one that resolves. *)
Definition step_text (p : string * string) : string :=
  "From Node: " +:+ fst p +:+ " to Node: " +:+ snd p.

Definition last_text (P : GraphProps) (steps : list (string * string))
    (init : option string) : option string :=
  fold_left (λ acc p, if resolves P p then Some (step_text p) else acc)
            steps init.

(** * Properties *)

(** ** Field-by-field behaviour of the component's functions *)

Ltac crush_state st :=
  destruct st as [g d cs ic ip ar ci cc]; simpl in *.

Lemma clearAnimation_eq st : clearAnimation st = set_animationRef None st.
Proof. crush_state st. unfold clearAnimation. simpl. by destruct ar. Qed.

Lemma with_g_gRef f st : gRef (with_g f st) = f <$> gRef st.
Proof. crush_state st. unfold with_g. simpl. by destruct g. Qed.

Lemma with_g_other f st :
  dimensions (with_g f st) = dimensions st ∧
  currentStep (with_g f st) = currentStep st ∧
  isComplete (with_g f st) = isComplete st ∧
  isPaused (with_g f st) = isPaused st ∧
  animationRef (with_g f st) = animationRef st ∧
  currentIndexRef (with_g f st) = currentIndexRef st ∧
  completeCalls (with_g f st) = completeCalls st.
Proof. crush_state st. unfold with_g. simpl. by destruct g. Qed.

Lemma setInitialNodeColors_other P st :
  dimensions (setInitialNodeColors P st) = dimensions st ∧
  currentStep (setInitialNodeColors P st) = currentStep st ∧
  isComplete (setInitialNodeColors P st) = isComplete st ∧
  isPaused (setInitialNodeColors P st) = isPaused st ∧
  animationRef (setInitialNodeColors P st) = animationRef st ∧
  currentIndexRef (setInitialNodeColors P st) = currentIndexRef st ∧
  completeCalls (setInitialNodeColors P st) = completeCalls st.
Proof. apply with_g_other. Qed.

Lemma setInitialNodeColors_lines P st :
  lines <$> gRef (setInitialNodeColors P st) = lines <$> gRef st.
Proof.
  unfold setInitialNodeColors. rewrite with_g_gRef. by destruct (gRef st).
Qed.

(** [startAnimation] touches the circles and the interval, nothing else. *)
Lemma startAnimation_other P paused d st :
  dimensions (startAnimation P paused d st) = dimensions st ∧
  currentStep (startAnimation P paused d st) = currentStep st ∧
  isComplete (startAnimation P paused d st) = isComplete st ∧
  isPaused (startAnimation P paused d st) = isPaused st ∧
  currentIndexRef (startAnimation P paused d st) = currentIndexRef st ∧
  completeCalls (startAnimation P paused d st) = completeCalls st ∧
  lines <$> gRef (startAnimation P paused d st) = lines <$> gRef st.
Proof.
  unfold startAnimation.
  destruct (gRef st) as [g|] eqn:Hg; [|by rewrite Hg].
  destruct (paths P) as [|p ps]; [by rewrite Hg|].
  pose proof (setInitialNodeColors_other P st) as (?&?&?&?&?&?&?).
  pose proof (setInitialNodeColors_lines P st) as Hl. rewrite Hg in Hl.
  case_decide; case_match; simpl; rewrite ?Hg; naive_solver.
Qed.

Lemma startAnimation_empty P paused d st :
  paths P = [] → startAnimation P paused d st = st.
Proof. intros HP. unfold startAnimation. rewrite HP. by destruct (gRef st). Qed.

Lemma startAnimation_gRef_keep P paused d st :
  currentIndexRef st ≠ 0 → gRef (startAnimation P paused d st) = gRef st.
Proof.
  intros Hi. unfold startAnimation.
  destruct (gRef st) as [g|] eqn:Hg; [|done].
  destruct (paths P); [done|].
  case_decide; [done|]. by case_match.
Qed.

Lemma startAnimation_is_Some_gRef P paused d st :
  is_Some (gRef st) → is_Some (gRef (startAnimation P paused d st)).
Proof.
  intros [g Hg]. unfold startAnimation. rewrite Hg.
  destruct (paths P); [by rewrite Hg|].
  assert (is_Some (gRef (setInitialNodeColors P st))).
  { unfold setInitialNodeColors. rewrite with_g_gRef, Hg. by eexists. }
  case_decide; case_match; simpl; rewrite ?Hg; eauto.
Qed.

(** On a non-empty path sequence and with a group, [startAnimation] leaves
    an interval armed: the one already there, or a new one. *)
Lemma startAnimation_animationRef P paused d st :
  animationRef (startAnimation P paused d st) =
    match gRef st, paths P, animationRef st with
    | None, _, a => a
    | _, [], a => a
    | _, _, Some t => Some t
    | Some _, _ :: _, None => Some {| t_isPaused := paused; t_dimensions := d |}
    end.
Proof.
  unfold startAnimation.
  destruct (gRef st) as [g|] eqn:Hg; [|done].
  destruct (paths P) as [|p ps]; [done|].
  pose proof (setInitialNodeColors_other P st) as (?&?&?&?&Ha&?&?).
  case_decide; rewrite ?Ha; destruct (animationRef st) eqn:E; simpl; congruence.
Qed.

Lemma apply_step_other P t st :
  dimensions (apply_step P t st) = dimensions st ∧
  isComplete (apply_step P t st) = isComplete st ∧
  isPaused (apply_step P t st) = isPaused st ∧
  animationRef (apply_step P t st) = animationRef st ∧
  currentIndexRef (apply_step P t st) = currentIndexRef st ∧
  completeCalls (apply_step P t st) = completeCalls st.
Proof.
  unfold apply_step. repeat case_match; try done.
  crush_state st. unfold with_g. simpl. by destruct g.
Qed.

Lemma apply_step_is_Some_gRef P t st :
  is_Some (gRef st) → is_Some (gRef (apply_step P t st)).
Proof.
  intros [g Hg]. unfold apply_step. repeat case_match; eauto. simpl.
  rewrite !with_g_gRef, Hg. by eexists.
Qed.

(** ** The interval callback *)

Lemma animate_paused P t st : t_isPaused t = true → animate P t st = st.
Proof. intros H. unfold animate. by rewrite H. Qed.

Lemma animate_advance P t st :
  t_isPaused t = false → S (currentIndexRef st) < length (paths P) →
  animate P t st =
    set_currentIndexRef (S (currentIndexRef st)) (apply_step P t st).
Proof.
  intros Ht Hlt. unfold animate. rewrite Ht.
  pose proof (apply_step_other P t st) as (_&_&_&_&Hi&_). rewrite Hi.
  case_match; [|done]. apply Z.leb_le in H. lia.
Qed.

Lemma animate_complete P t st :
  t_isPaused t = false → length (paths P) ≤ S (currentIndexRef st) →
  animate P t st =
    call_onComplete P (clearAnimation (setIsComplete true (apply_step P t st))).
Proof.
  intros Ht Hle. unfold animate. rewrite Ht.
  pose proof (apply_step_other P t st) as (_&_&_&_&Hi&_). rewrite Hi.
  case_match; [done|]. apply Z.leb_gt in H. lia.
Qed.

(** Everything [animate] does to the fields other than the scene and the
    step text. *)
Lemma animate_fields P t st :
  t_isPaused t = false →
  isPaused (animate P t st) = isPaused st ∧
  dimensions (animate P t st) = dimensions st ∧
  (S (currentIndexRef st) < length (paths P) →
     currentIndexRef (animate P t st) = S (currentIndexRef st) ∧
     animationRef (animate P t st) = animationRef st ∧
     isComplete (animate P t st) = isComplete st ∧
     completeCalls (animate P t st) = completeCalls st) ∧
  (length (paths P) ≤ S (currentIndexRef st) →
     currentIndexRef (animate P t st) = currentIndexRef st ∧
     animationRef (animate P t st) = None ∧
     isComplete (animate P t st) = true ∧
     completeCalls (animate P t st) =
       if onAnimationComplete P then S (completeCalls st) else completeCalls st).
Proof.
  intros Ht.
  pose proof (apply_step_other P t st) as (Hd&Hc&Hp&Ha&Hi&Hn).
  destruct (decide (S (currentIndexRef st) < length (paths P))) as [Hlt|Hge].
  - rewrite (animate_advance P t st Ht Hlt). simpl.
    split_and!; try done. intros; lia.
  - rewrite (animate_complete P t st Ht) by lia. rewrite clearAnimation_eq. simpl.
    split_and!; try done; try (intros; lia). intros _. rewrite Hi, Hn. done.
Qed.

Lemma animate_is_Some_gRef P t st :
  is_Some (gRef st) → is_Some (gRef (animate P t st)).
Proof.
  intros Hg. unfold animate. destruct (t_isPaused t); [done|].
  pose proof (apply_step_is_Some_gRef P t st Hg).
  rewrite clearAnimation_eq. by case_match.
Qed.

(** ** The imperative handle and the effects *)

Lemma startAnimation_effect_fields P st :
  dimensions (startAnimation_effect P st) = dimensions st ∧
  currentStep (startAnimation_effect P st) = currentStep st ∧
  isComplete (startAnimation_effect P st) = isComplete st ∧
  isPaused (startAnimation_effect P st) = isPaused st ∧
  currentIndexRef (startAnimation_effect P st) = currentIndexRef st ∧
  completeCalls (startAnimation_effect P st) = completeCalls st ∧
  lines <$> gRef (startAnimation_effect P st) = lines <$> gRef st ∧
  (is_Some (gRef st) → is_Some (gRef (startAnimation_effect P st))) ∧
  (currentIndexRef st ≠ 0 → gRef (startAnimation_effect P st) = gRef st) ∧
  animationRef (startAnimation_effect P st) =
    match gRef st, paths P with
    | Some _, _ :: _ =>
        Some {| t_isPaused := isPaused st; t_dimensions := dimensions st |}
    | _, _ => None
    end.
Proof.
  unfold startAnimation_effect. rewrite clearAnimation_eq.
  set (st1 := set_animationRef None st).
  pose proof (startAnimation_other P (isPaused st) (dimensions st) st1)
    as (?&?&?&?&?&?&?).
  pose proof (startAnimation_is_Some_gRef P (isPaused st) (dimensions st) st1).
  pose proof (startAnimation_gRef_keep P (isPaused st) (dimensions st) st1).
  pose proof (startAnimation_animationRef P (isPaused st) (dimensions st) st1)
    as Ha.
  split_and!; done.
Qed.

Lemma togglePause_handler_fields P st :
  dimensions (togglePause_handler P st) = dimensions st ∧
  currentStep (togglePause_handler P st) = currentStep st ∧
  isComplete (togglePause_handler P st) = isComplete st ∧
  isPaused (togglePause_handler P st) = negb (isPaused st) ∧
  currentIndexRef (togglePause_handler P st) = currentIndexRef st ∧
  completeCalls (togglePause_handler P st) = completeCalls st ∧
  lines <$> gRef (togglePause_handler P st) = lines <$> gRef st ∧
  (is_Some (gRef st) → is_Some (gRef (togglePause_handler P st))) ∧
  (currentIndexRef st ≠ 0 → gRef (togglePause_handler P st) = gRef st).
Proof.
  unfold togglePause_handler.
  set (st1 := setIsPaused (negb (isPaused st)) st).
  pose proof (startAnimation_other P (isPaused st) (dimensions st) st1)
    as (?&?&?&?&?&?&?).
  pose proof (startAnimation_is_Some_gRef P (isPaused st) (dimensions st) st1).
  pose proof (startAnimation_gRef_keep P (isPaused st) (dimensions st) st1).
  rewrite clearAnimation_eq.
  destruct (isPaused st) eqn:Hp; [destruct (animationRef st1) eqn:Ha|];
    simpl; split_and!; try done.
Qed.

Lemma togglePause_fields P st :
  dimensions (togglePause P st) = dimensions st ∧
  currentStep (togglePause P st) = currentStep st ∧
  isComplete (togglePause P st) = isComplete st ∧
  isPaused (togglePause P st) = negb (isPaused st) ∧
  currentIndexRef (togglePause P st) = currentIndexRef st ∧
  completeCalls (togglePause P st) = completeCalls st ∧
  lines <$> gRef (togglePause P st) = lines <$> gRef st ∧
  (is_Some (gRef st) → is_Some (gRef (togglePause P st))) ∧
  (currentIndexRef st ≠ 0 → gRef (togglePause P st) = gRef st) ∧
  animationRef (togglePause P st) =
    match gRef st, paths P with
    | Some _, _ :: _ =>
        Some {| t_isPaused := negb (isPaused st); t_dimensions := dimensions st |}
    | _, _ => None
    end.
Proof.
  unfold togglePause.
  pose proof (togglePause_handler_fields P st) as (Hd&Hs&Hc&Hp&Hi&Hn&Hl&Hg&Hk).
  pose proof (startAnimation_effect_fields P (togglePause_handler P st))
    as (Hd'&Hs'&Hc'&Hp'&Hi'&Hn'&Hl'&Hg'&Hk'&Ha').
  split_and!; try congruence.
  - auto.
  - intros Hne. rewrite Hk' by congruence. auto.
  - rewrite Ha', Hp, Hd.
    destruct (gRef st) as [g|] eqn:Eg.
    + destruct Hg as [g' Eg']; [by eexists|]. by rewrite Eg'.
    + assert (gRef (togglePause_handler P st) = None) as ->; [|done].
      by destruct (gRef (togglePause_handler P st)).
Qed.

Lemma resetVisualization_handler_fields P st :
  dimensions (resetVisualization_handler P st) = dimensions st ∧
  currentStep (resetVisualization_handler P st) = None ∧
  isComplete (resetVisualization_handler P st) = false ∧
  isPaused (resetVisualization_handler P st) = false ∧
  currentIndexRef (resetVisualization_handler P st) = 0 ∧
  completeCalls (resetVisualization_handler P st) = completeCalls st ∧
  animationRef (resetVisualization_handler P st) = None ∧
  (is_Some (gRef st) → is_Some (gRef (resetVisualization_handler P st))).
Proof.
  unfold resetVisualization_handler, setInitialNodeColors.
  rewrite clearAnimation_eq. crush_state st.
  unfold with_g. simpl. destruct g; simpl; split_and!; try done; eauto.
Qed.

Lemma resetVisualization_fields P st :
  dimensions (resetVisualization P st) = dimensions st ∧
  currentStep (resetVisualization P st) = None ∧
  isComplete (resetVisualization P st) = false ∧
  isPaused (resetVisualization P st) = false ∧
  currentIndexRef (resetVisualization P st) = 0 ∧
  completeCalls (resetVisualization P st) = completeCalls st ∧
  (is_Some (gRef st) → is_Some (gRef (resetVisualization P st))) ∧
  (∀ t, animationRef (resetVisualization P st) = Some t →
        t_isPaused t = false ∧ t_dimensions t = dimensions st ∧ paths P ≠ []).
Proof.
  unfold resetVisualization.
  pose proof (resetVisualization_handler_fields P st) as (Hd&Hs&Hc&Hp&Hi&Hn&Ha&Hg).
  pose proof (startAnimation_effect_fields P (resetVisualization_handler P st))
    as (Hd'&Hs'&Hc'&Hp'&Hi'&Hn'&Hl'&Hg'&Hk'&Ha').
  destruct (isPaused st).
  - split_and!; try congruence; [auto|].
    intros t. rewrite Ha', Hp, Hd. repeat case_match; naive_solver.
  - split_and!; try done. intros t. by rewrite Ha.
Qed.

Lemma drawGraph_fields P st st' :
  drawGraph P st = Some st' →
  dimensions st' = dimensions st ∧ currentStep st' = currentStep st ∧
  isComplete st' = isComplete st ∧ isPaused st' = isPaused st ∧
  animationRef st' = animationRef st ∧
  currentIndexRef st' = currentIndexRef st ∧
  completeCalls st' = completeCalls st ∧
  (is_Some (gRef st) → is_Some (gRef st')).
Proof.
  unfold drawGraph. intros H.
  destruct (gRef st) eqn:Hg; [|by simplify_eq].
  destruct (nodes (data P)); [by simplify_eq|].
  destruct (mapM _ _); simplify_eq/=. split_and!; eauto.
Qed.

Lemma resize_fields P d st st' :
  resize P d st = Some st' →
  dimensions st' = d ∧ currentStep st' = currentStep st ∧
  isComplete st' = isComplete st ∧ isPaused st' = isPaused st ∧
  currentIndexRef st' = currentIndexRef st ∧
  completeCalls st' = completeCalls st ∧
  is_Some (gRef st') ∧
  (∀ t, animationRef st' = Some t →
        t_isPaused t = isPaused st ∧ t_dimensions t = d ∧ paths P ≠ []).
Proof.
  unfold resize. rewrite clearAnimation_eq. intros H.
  destruct (drawGraph _ _) as [st2|] eqn:Hdraw; simplify_eq/=.
  apply drawGraph_fields in Hdraw as (Hd&Hs&Hc&Hp&Ha&Hi&Hn&Hg). simpl in *.
  pose proof (startAnimation_other P (isPaused st2) (dimensions st2) st2)
    as (?&?&?&?&?&?&?).
  pose proof (startAnimation_is_Some_gRef P (isPaused st2) (dimensions st2) st2).
  pose proof (startAnimation_animationRef P (isPaused st2) (dimensions st2) st2)
    as Ha'.
  split_and!; try congruence; [eauto|].
  intros t. rewrite Ha', Ha. repeat case_match; naive_solver.
Qed.

Lemma mount_fields P st0 :
  mount P = Some st0 →
  dimensions st0 = {| width := 900; height := 700 |} ∧
  currentStep st0 = None ∧ isComplete st0 = false ∧ isPaused st0 = false ∧
  currentIndexRef st0 = 0 ∧ completeCalls st0 = 0 ∧ is_Some (gRef st0) ∧
  animationRef st0 =
    match paths P with
    | [] => None
    | _ :: _ => Some {| t_isPaused := false;
                        t_dimensions := {| width := 900; height := 700 |} |}
    end.
Proof.
  unfold mount. intros H.
  destruct (drawGraph _ _) as [st|] eqn:Hdraw; simplify_eq/=.
  apply drawGraph_fields in Hdraw as (Hd&Hs&Hc&Hp&Ha&Hi&Hn&Hg). simpl in *.
  pose proof (startAnimation_other P (isPaused st) (dimensions st) st)
    as (?&?&?&?&?&?&?).
  pose proof (startAnimation_is_Some_gRef P (isPaused st) (dimensions st) st).
  pose proof (startAnimation_animationRef P (isPaused st) (dimensions st) st)
    as Ha'.
  split_and!; try congruence; [eauto|].
  rewrite Ha', Ha, Hp, Hd. destruct Hg as [g ->]; [by eexists|].
  by destruct (paths P).
Qed.

(** ** The invariant of reachable states *)

Lemma mount_inv P st0 : mount P = Some st0 → playback_inv P st0.
Proof.
  intros (Hd&Hs&Hc&Hp&Hi&Hn&Hg&Ha)%mount_fields.
  unfold playback_inv. rewrite Ha, Hi, Hc, Hn, Hp, Hd.
  destruct (paths P) as [|p ps] eqn:E; split_and!; try done; simpl.
  - intros _. split; [lia|done].
  - intros t [= <-]. done.
Qed.

Lemma tick_inv P st : playback_inv P st → playback_inv P (tick P st).
Proof.
  intros Hinv. pose proof Hinv as (He&Hne&Ht&Hg). unfold tick.
  destruct (animationRef st) as [t|] eqn:Ha; [|done].
  destruct (t_isPaused t) eqn:Hp; [by rewrite animate_paused|].
  destruct (decide (paths P = [])) as [E|E]; [by destruct (He E)|].
  destruct (Hne E) as [Hlt Hc].
  pose proof (animate_fields P t st Hp) as (Hp'&Hd'&Hadv&Hcpl).
  pose proof (animate_is_Some_gRef P t st Hg) as Hg'.
  unfold playback_inv. split_and!; try done.
  - destruct (decide (S (currentIndexRef st) < length (paths P))) as [H|H].
    + destruct (Hadv H) as (->&_&->&_). intros _. split; [done|].
      intros Hic. specialize (Hc Hic). lia.
    + destruct Hcpl as (->&_&_&_); [lia|]. intros _. split; [done|]. lia.
  - intros t'.
    destruct (decide (S (currentIndexRef st) < length (paths P))) as [H|H].
    + destruct (Hadv H) as (_&->&_&_). rewrite Ha, Hp', Hd'. by apply Ht.
    + destruct Hcpl as (_&->&_&_); [lia|done].
Qed.

Lemma togglePause_inv P st : playback_inv P st → playback_inv P (togglePause P st).
Proof.
  intros (He&Hne&Ht&Hg).
  pose proof (togglePause_fields P st) as (Hd&Hs&Hc&Hp&Hi&Hn&Hl&Hg'&Hk&Ha).
  unfold playback_inv. rewrite Ha, Hc, Hi, Hn, Hp, Hd. split_and!; auto.
  - intros E. rewrite E. destruct (He E) as (?&?&?&?).
    by destruct (gRef st).
  - intros t. destruct (gRef st); [destruct (paths P)|]; try done.
    by intros [= <-].
Qed.

Lemma resetVisualization_inv P st :
  playback_inv P st → playback_inv P (resetVisualization P st).
Proof.
  intros (He&Hne&Ht&Hg).
  pose proof (resetVisualization_fields P st) as (Hd&Hs&Hc&Hp&Hi&Hn&Hg'&Ha).
  unfold playback_inv. rewrite Hc, Hi, Hn, Hp, Hd. split_and!; auto.
  - intros E. destruct (He E) as (?&?&?&?). split_and!; try done.
    destruct (animationRef (resetVisualization P st)) as [t|]; [|done].
    by destruct (Ha t eq_refl) as (_&_&?).
  - intros E. split; [|done]. destruct (paths P); [done|simpl; lia].
  - intros t Et. destruct (Ha t Et) as (?&?&_). done.
Qed.

Lemma resize_inv P d st st' :
  playback_inv P st → resize P d st = Some st' → playback_inv P st'.
Proof.
  intros (He&Hne&Ht&Hg) (Hd&Hs&Hc&Hp&Hi&Hn&Hg'&Ha)%resize_fields.
  unfold playback_inv. rewrite Hc, Hi, Hn, Hp, Hd. split_and!; auto.
  - intros E. destruct (He E) as (?&?&?&?). split_and!; try done.
    destruct (animationRef st') as [t|]; [|done].
    by destruct (Ha t eq_refl) as (_&_&?).
  - intros t Et. destruct (Ha t Et) as (?&?&_). done.
Qed.

Lemma step_inv P e st st' :
  playback_inv P st → step P e st = Some st' → playback_inv P st'.
Proof.
  intros Hinv. destruct e; simpl; intros H; simplify_eq;
    eauto using tick_inv, togglePause_inv, resetVisualization_inv, resize_inv.
Qed.

Lemma run_inv P es : ∀ st st',
  playback_inv P st → run P es st = Some st' → playback_inv P st'.
Proof.
  induction es as [|e es IH]; simpl; intros st st' Hinv H; [by simplify_eq|].
  destruct (step P e st) as [st1|] eqn:Hs; simplify_eq/=.
  eauto using step_inv.
Qed.

Lemma reachable_inv P st : reachable P st → playback_inv P st.
Proof. intros (st0&es&Hm&Hr). eauto using run_inv, mount_inv. Qed.


(** ** An uninterrupted run *)

Lemma mount_run_start P st0 :
  mount P = Some st0 → paths P ≠ [] → run_start P st0.
Proof.
  intros (_&_&Hc&Hp&Hi&Hn&_&Ha)%mount_fields Hne.
  unfold run_start. split_and!; try done.
  rewrite Ha. destruct (paths P); [done|]. by eexists.
Qed.

Lemma resize_run_start P d st st' :
  run_start P st → resize P d st = Some st' → run_start P st'.
Proof.
  intros (Hne&Hi&Hc&Hp&Hn&_) Hr.
  pose proof Hr as (_&_&Hc'&Hp'&Hi'&Hn'&_&_)%resize_fields.
  unfold run_start. split_and!; try congruence.
  revert Hr. unfold resize. rewrite clearAnimation_eq. intros Hr.
  destruct (drawGraph _ _) as [st2|] eqn:Hdraw; simplify_eq/=.
  apply drawGraph_fields in Hdraw as (_&_&_&Hp2&Ha2&_&_&Hg2). simpl in *.
  rewrite startAnimation_animationRef, Ha2.
  destruct Hg2 as [g ->]; [by eexists|].
  destruct (paths P); [done|]. eexists. split; [done|]. simpl. congruence.
Qed.

(** From the start of a run, [n] firings of the interval and nothing else:
    the index follows the number of firings up to the last position, where
    the run completes. *)
Lemma ticks_from_start P st0 n :
  run_start P st0 →
  currentIndexRef (ticks P n st0) = Nat.min n (length (paths P) - 1) ∧
  isComplete (ticks P n st0) = (length (paths P) <=? n) ∧
  completeCalls (ticks P n st0) =
    (if (length (paths P) <=? n) && onAnimationComplete P then 1 else 0) ∧
  animationRef (ticks P n st0) =
    if length (paths P) <=? n then None else animationRef st0.
Proof.
  intros (Hne&Hi&Hc&_&Hn&t&Ha&Hp).
  assert (0 < length (paths P)) as Hlen by (destruct (paths P); [done|simpl; lia]).
  induction n as [|n (IHi&IHc&IHn&IHa)].
  - simpl. rewrite Hi, Hc, Hn.
    destruct (Nat.leb_spec (length (paths P)) 0); [lia|]. done.
  - change (ticks P (S n) st0) with (tick P (ticks P n st0)).
    unfold tick. rewrite IHa.
    destruct (Nat.leb_spec (length (paths P)) n) as [Hle|Hlt].
    + rewrite IHi, IHc, IHn, IHa.
      destruct (Nat.leb_spec (length (paths P)) n); [|lia].
      destruct (Nat.leb_spec (length (paths P)) (S n)); [|lia].
      split_and!; try done. lia.
    + rewrite Ha.
      pose proof (animate_fields P t (ticks P n st0) Hp) as (_&_&Hadv&Hcpl).
      rewrite IHi, IHc, IHn, IHa in *.
      destruct (Nat.leb_spec (length (paths P)) (S n)) as [Hle'|Hlt'].
      * destruct Hcpl as (->&->&->&->); [lia|].
        split_and!; first [done | lia | by destruct (onAnimationComplete P)].
      * destruct Hadv as (->&->&->&->); [lia|].
        split_and!; first [done | lia].
Qed.

Lemma steps_applied_from_start P st0 n :
  run_start P st0 →
  steps_applied (ticks P n st0) = Nat.min n (length (paths P)).
Proof.
  intros Hs. pose proof Hs as (Hne&_).
  assert (0 < length (paths P)) as Hlen by (destruct (paths P); [done|simpl; lia]).
  destruct (ticks_from_start P st0 n Hs) as (Hi&Hc&_).
  unfold steps_applied. rewrite Hi, Hc.
  destruct (Nat.leb_spec (length (paths P)) n); lia.
Qed.

(** ** C2: empty path sequence *)

(** C2, as the code has it.  With an empty path sequence [startAnimation]
    returns at once and leaves the state as it is: no interval is armed,
    [isComplete] is not set and the completion callback is not invoked; and in
    every state of such a run no interval is armed, the controller is not
    complete and the callback has been invoked zero times. *)
Theorem C2_empty_paths_start_is_noop P :
  paths P = [] →
  (∀ paused d st, startAnimation P paused d st = st) ∧
  (∀ st, reachable P st →
         animationRef st = None ∧ isComplete st = false ∧ completeCalls st = 0).
Proof.
  intros HP. split.
  - intros. by apply startAnimation_empty.
  - intros st (He&_)%reachable_inv. destruct (He HP) as (?&?&?&?). done.
Qed.

Lemma C2_empty_paths_witness :
  is_Some (mount scenario_empty) ∧
  (∀ paused d st, startAnimation scenario_empty paused d st = st) ∧
  (∀ st, reachable scenario_empty st →
         animationRef st = None ∧ isComplete st = false ∧ completeCalls st = 0).
Proof.
  split; [eexists; reflexivity|].
  apply (C2_empty_paths_start_is_noop scenario_empty). reflexivity.
Defined.

(** C2 as stated fails: after mounting with an empty path sequence the
    controller is not complete and the callback has not been invoked. *)
Lemma C2_empty_paths_counterexample :
  paths scenario_empty = [] ∧
  ∃ st, mount scenario_empty = Some st ∧
        isComplete st = false ∧ completeCalls st = 0 ∧ completeCalls st ≠ 1.
Proof. split; [reflexivity|]. eexists. split; [reflexivity|]. by vm_compute. Qed.

(** ** C3: the completion callback *)




(** ** C6: bounds on the index *)

(** C6, as the code has it.  In every state of a run the index is at most the
    length of the path sequence; over a non-empty sequence it is strictly
    below the length, and a complete run has it at the last position; it
    equals the length only for the empty sequence, where the controller is
    never complete. *)
Theorem C6_index_bounds P st :
  reachable P st →
  currentIndexRef st ≤ length (paths P) ∧
  (paths P ≠ [] → currentIndexRef st < length (paths P)) ∧
  (isComplete st = true → S (currentIndexRef st) = length (paths P)) ∧
  (currentIndexRef st = length (paths P) → paths P = [] ∧ isComplete st = false).
Proof.
  intros (He&Hne&_&_)%reachable_inv.
  destruct (decide (paths P = [])) as [E|E].
  - destruct (He E) as (_&Hc&Hi&_). rewrite Hi, Hc, E. simpl.
    split_and!; first [done | lia].
  - destruct (Hne E) as [Hlt Hc].
    split_and!; first [done | lia | intros; lia].
Qed.

Lemma C6_index_bounds_witness :
  ∃ st0, mount scenario_chain = Some st0 ∧
         S (currentIndexRef (ticks scenario_chain 2 st0)) =
           length (paths scenario_chain).
Proof.
  eexists. split; [vm_compute; reflexivity|].
  apply (C6_index_bounds scenario_chain).
  - eexists _, [Tick; Tick].
    split; [vm_compute; reflexivity | vm_compute; reflexivity].
  - vm_compute; reflexivity.
Defined.

(** C6 as stated fails: with an empty path sequence the index equals the
    length of the sequence from the start, and the controller is not
    complete. *)
Lemma C6_index_bounds_counterexample :
  ∃ st, reachable scenario_empty st ∧
        currentIndexRef st = length (paths scenario_empty) ∧
        isComplete st = false.
Proof.
  eexists. split.
  - eexists _, []. split; [vm_compute; reflexivity | reflexivity].
  - split; reflexivity.
Qed.

(** ** Selections by id *)

Lemma select_line_absent s t f ls :
  line_stroke s t ls = None → select_line s t f ls = ls.
Proof.
  induction ls as [|l ls IH]; simpl; [done|].
  case_decide; [done|]. intros Hls. by rewrite IH.
Qed.

Lemma line_stroke_select_same s t c w ls :
  line_stroke s t (select_line s t (attr_stroke c w) ls) =
    (λ _, c) <$> line_stroke s t ls.
Proof.
  induction ls as [|l ls IH]; simpl; [done|].
  case_decide as Hk; simpl.
  - by rewrite decide_True.
  - by rewrite decide_False.
Qed.

Lemma line_stroke_select_other s t s' t' c w ls :
  ¬ (s = s' ∧ t = t') →
  line_stroke s' t' (select_line s t (attr_stroke c w) ls) = line_stroke s' t' ls.
Proof.
  intros Hne. induction ls as [|l ls IH]; simpl; [done|].
  case_decide as Hk; simpl.
  - destruct Hk as [<- <-]. by rewrite !decide_False.
  - case_decide; [done|]. apply IH.
Qed.


Lemma circle_fill_select_same i c cs :
  circle_fill i (select_circle i (attr_fill c) cs) = (λ _, c) <$> circle_fill i cs.
Proof.
  induction cs as [|e cs IH]; simpl; [done|].
  case_decide as Hk; simpl.
  - by rewrite decide_True.
  - by rewrite decide_False.
Qed.

(** ** The scene after a firing *)

Lemma animate_gRef P t st :
  t_isPaused t = false → gRef (animate P t st) = gRef (apply_step P t st).
Proof.
  intros Hp. unfold animate. rewrite Hp, clearAnimation_eq. by case_match.
Qed.

Lemma animate_currentStep P t st :
  t_isPaused t = false →
  currentStep (animate P t st) = currentStep (apply_step P t st).
Proof.
  intros Hp. unfold animate. rewrite Hp, clearAnimation_eq. by case_match.
Qed.

Lemma dehighlight_prev_key P i src ls :
  dehighlight P i src ls =
    match prev_key P i src with
    | Some (a, b) => select_line a b (attr_stroke black 1%Z) ls
    | None => ls
    end.
Proof.
  unfold dehighlight, prev_key. case_bool_decide; [|done].
  destruct (list_find _ _) as [[j p]|]; simpl; [|done].
  destruct (paths P !! j) as [[prevSource prevTarget]|]; simpl; [|done].
  destruct (find_node P prevSource); simpl; [|done].
  by destruct (find_node P prevTarget).
Qed.

Lemma prev_key_bfs P i src : algorithm P = "bfs" → prev_key P i src = None.
Proof. intros H. unfold prev_key. by rewrite bool_decide_false by naive_solver. Qed.

Lemma prev_key_Some P i src s d :
  prev_key P i src = Some (s, d) ↔
    algorithm P ≠ "bfs" ∧
    ∃ j pT a b,
      j < i ∧ paths P !! j = Some (src, pT) ∧
      (∀ j' p, j' < j → paths P !! j' = Some p → fst p ≠ src) ∧
      find_node P src = Some a ∧ find_node P pT = Some b ∧
      index a = s ∧ index b = d.
Proof.
  unfold prev_key. case_bool_decide as Halg; [|split; [done|by intros [? _]]].
  split.
  - intros H. split; [done|].
    destruct (list_find _ _) as [[j p]|] eqn:Hf; simplify_eq/=.
    apply list_find_Some in Hf as (Hj&Hp&Hleast).
    apply lookup_take_Some in Hj as [Hj Hlt].
    rewrite Hj in H. destruct p as [pS pT]. simpl in *. subst pS.
    destruct (find_node P src) as [a|] eqn:Ha; simplify_eq/=.
    destruct (find_node P pT) as [b|] eqn:Hb; simplify_eq/=.
    exists j, pT, a, b. split_and!; try done.
    intros j' p Hj' Hp'. apply (Hleast j' p); [|done].
    rewrite lookup_take_lt by lia. done.
  - intros (_&j&pT&a&b&Hlt&Hj&Hleast&Ha&Hb&<-&<-).
    assert (list_find (λ p, fst p = src) (take i (paths P)) = Some (j, (src, pT)))
      as ->.
    { apply list_find_Some. split_and!; [by rewrite lookup_take_lt | done |].
      intros j' p [Hj' _]%lookup_take_Some Hlt'. by apply (Hleast j' p). }
    simpl. rewrite Hj. simpl. rewrite Ha. simpl. rewrite Hb. done.
Qed.

(** The scene after [apply_step], when the step at the index resolves. *)
Lemma apply_step_resolved P t st g src tgt sN tN :
  gRef st = Some g →
  paths P !! currentIndexRef st = Some (src, tgt) →
  find_node P src = Some sN → find_node P tgt = Some tN →
  gRef (apply_step P t st) =
    Some {| lines :=
              select_line (index sN) (index tN)
                (attr_stroke red (active_width (t_dimensions t)))
                (dehighlight P (currentIndexRef st) src (lines g));
            circles := select_circle (index tN) (attr_fill red) (circles g) |} ∧
  currentStep (apply_step P t st) =
    Some ("From Node: " +:+ src +:+ " to Node: " +:+ tgt).
Proof.
  intros Hg Hp Hs Ht. unfold apply_step. rewrite Hp, Hs, Ht. simpl.
  rewrite !with_g_gRef, Hg. done.
Qed.

(** A step that does not resolve, or no step at all, changes nothing. *)
Lemma apply_step_unresolved P t st :
  (∀ src tgt, paths P !! currentIndexRef st = Some (src, tgt) →
              find_node P src = None ∨ find_node P tgt = None) →
  apply_step P t st = st.
Proof.
  intros H. unfold apply_step.
  destruct (paths P !! currentIndexRef st) as [[src tgt]|]; [|done].
  destruct (H src tgt eq_refl) as [-> | ->]; [done|]. by case_match.
Qed.

(** ** C7: de-highlighting *)






(** ** C8: steps that name an unknown label *)

(** C8, as the code has it.  A firing at a step one of whose labels matches
    no node changes no element of the scene and not the step text; it moves
    the index as every firing does: one further when the step is not the
    last, and not at all when it is the last, where it completes the run.
    An uninterrupted run completes whichever labels resolve. *)
Theorem C8_missing_reference P t st src tgt :
  animationRef st = Some t → t_isPaused t = false →
  paths P !! currentIndexRef st = Some (src, tgt) →
  find_node P src = None ∨ find_node P tgt = None →
  gRef (tick P st) = gRef st ∧
  currentStep (tick P st) = currentStep st ∧
  (S (currentIndexRef st) < length (paths P) →
     currentIndexRef (tick P st) = S (currentIndexRef st) ∧
     animationRef (tick P st) = Some t ∧
     isComplete (tick P st) = isComplete st) ∧
  (length (paths P) ≤ S (currentIndexRef st) →
     currentIndexRef (tick P st) = currentIndexRef st ∧
     animationRef (tick P st) = None ∧
     isComplete (tick P st) = true) ∧
  (∀ st0, mount P = Some st0 →
          isComplete (ticks P (length (paths P)) st0) = true).
Proof.
  intros Ha Hp Hi Hmiss.
  assert (apply_step P t st = st) as Hst.
  { apply apply_step_unresolved. intros ?? Hx. rewrite Hi in Hx. by simplify_eq. }
  pose proof (animate_fields P t st Hp) as (_&_&Hadv&Hcpl).
  unfold tick. rewrite Ha, animate_gRef, animate_currentStep, Hst by done.
  split_and!; try done.
  - intros H. destruct (Hadv H) as (->&->&->&_). done.
  - intros H. destruct (Hcpl H) as (->&->&->&_). done.
  - intros st0 Hm.
    assert (paths P ≠ []) as Hne by (intros E; by rewrite E in Hi).
    pose proof (ticks_from_start P st0 (length (paths P))
                  (mount_run_start P st0 Hm Hne)) as (_&->&_).
    by apply Nat.leb_le.
Qed.

Lemma C8_missing_reference_witness :
  ∃ st0, mount scenario_missing = Some st0 ∧
         gRef (tick scenario_missing st0) = gRef st0 ∧
         isComplete (ticks scenario_missing 1 st0) = true.
Proof.
  eexists. split; [vm_compute; reflexivity|].
  match goal with
  | |- context [tick scenario_missing ?st] =>
      destruct (C8_missing_reference scenario_missing
                  {| t_isPaused := false;
                     t_dimensions := {| width := 900; height := 700 |} |}
                  st "A" "Z")
        as (Hg & _ & _ & _ & Hc);
        [reflexivity | reflexivity | reflexivity | right; reflexivity |]
  end.
  split; [exact Hg|]. apply Hc. vm_compute; reflexivity.
Defined.

(** C8 as stated fails on the index: when the step that names an unknown
    label is the last one, the firing completes the run and does not
    advance the index. *)
Lemma C8_missing_reference_counterexample :
  ∃ st0, mount scenario_missing = Some st0 ∧
    paths scenario_missing !! currentIndexRef st0 = Some ("A", "Z") ∧
    find_node scenario_missing "Z" = None ∧
    t_isPaused <$> animationRef st0 = Some false ∧
    currentIndexRef (tick scenario_missing st0) = currentIndexRef st0 ∧
    currentIndexRef (tick scenario_missing st0) ≠ S (currentIndexRef st0).
Proof. eexists. split_and!; try reflexivity. by vm_compute. Qed.

(** ** C10: the orientation of an edge *)

Lemma line_stroke_dehighlight P i src s d ls :
  line_stroke s d (dehighlight P i src ls) = line_stroke s d ls ∨
  line_stroke s d (dehighlight P i src ls) = Some black.
Proof.
  rewrite dehighlight_prev_key.
  destruct (prev_key P i src) as [[a b]|]; [|by left].
  destruct (decide (a = s ∧ b = d)) as [[-> ->]|Hk].
  - rewrite line_stroke_select_same.
    destruct (line_stroke s d ls); [by right|by left].
  - left. by apply line_stroke_select_other.
Qed.

(** C10, as the code has it.  When the step at the index resolves to a pair
    of node indices that is the id of no line (the edge is stored in the
    other orientation only), the highlight selection of the firing matches
    no element: the lines are those left by the de-highlight selection, which
    may still revert the line of an earlier step; no line becomes active; the
    line stored in the other orientation keeps its style; the target circle
    is filled as for every step; and the index moves as for every firing
    (one further, or not at all on the last step, which completes the run). *)
Theorem C10_reversed_edge P t st g src tgt sN tN :
  gRef st = Some g → animationRef st = Some t → t_isPaused t = false →
  paths P !! currentIndexRef st = Some (src, tgt) →
  find_node P src = Some sN → find_node P tgt = Some tN →
  line_stroke (index sN) (index tN) (lines g) = None →
  ∃ g', gRef (tick P st) = Some g' ∧
    (∀ f, select_line (index sN) (index tN) f (lines g) = lines g) ∧
    lines g' = dehighlight P (currentIndexRef st) src (lines g) ∧
    (algorithm P = "bfs" → lines g' = lines g) ∧
    (∀ s d, line_stroke s d (lines g') = line_stroke s d (lines g) ∨
            line_stroke s d (lines g') = Some black) ∧
    (index sN ≠ index tN →
       line_stroke (index tN) (index sN) (lines g') =
         line_stroke (index tN) (index sN) (lines g)) ∧
    circles g' = select_circle (index tN) (attr_fill red) (circles g) ∧
    (S (currentIndexRef st) < length (paths P) →
       currentIndexRef (tick P st) = S (currentIndexRef st)) ∧
    (length (paths P) ≤ S (currentIndexRef st) →
       currentIndexRef (tick P st) = currentIndexRef st ∧
       isComplete (tick P st) = true).
Proof.
  intros Hg Ha Hp Hi Hs Ht Habs.
  pose proof (animate_fields P t st Hp) as (_&_&Hadv&Hcpl).
  destruct (apply_step_resolved P t st g src tgt sN tN Hg Hi Hs Ht) as [Hg' _].
  unfold tick. rewrite Ha, animate_gRef, Hg' by done.
  assert (line_stroke (index sN) (index tN)
            (dehighlight P (currentIndexRef st) src (lines g)) = None) as Habs'.
  { destruct (line_stroke_dehighlight P (currentIndexRef st) src
                (index sN) (index tN) (lines g)) as [Hd|Hd]; [by rewrite Hd|].
    rewrite dehighlight_prev_key in Hd |- *.
    destruct (prev_key P (currentIndexRef st) src) as [[a b]|]; [|done].
    destruct (decide (a = index sN ∧ b = index tN)) as [[-> ->]|Hk].
    - by rewrite line_stroke_select_same, Habs.
    - by rewrite line_stroke_select_other. }
  eexists. split; [done|]. simpl.
  rewrite (select_line_absent _ _ _ _ Habs').
  split_and!; try done.
  - intros f. by apply select_line_absent.
  - intros Halg. by rewrite dehighlight_prev_key, prev_key_bfs.
  - intros s d. apply line_stroke_dehighlight.
  - intros Hne. rewrite dehighlight_prev_key.
    destruct (prev_key P (currentIndexRef st) src) as [[a b]|] eqn:Hk; [|done].
    apply prev_key_Some in Hk as (_&j&pT&a'&b'&_&_&_&Ha'&_&<-&<-).
    assert (a' = sN) as -> by congruence.
    apply line_stroke_select_other. by intros [? _].
  - intros H. by destruct (Hadv H) as (->&_).
  - intros H. by destruct (Hcpl H) as (->&_&->&_).
Qed.

Lemma C10_reversed_edge_witness :
  ∃ st0 g,
    mount scenario_reversed = Some st0 ∧
    gRef (ticks scenario_reversed 1 st0) = Some g ∧
    line_stroke 0 2 (lines g) = None ∧ line_stroke 2 0 (lines g) = Some black ∧
    ∃ g', gRef (tick scenario_reversed (ticks scenario_reversed 1 st0)) = Some g' ∧
          line_stroke 2 0 (lines g') = line_stroke 2 0 (lines g).
Proof.
  eexists _, _. split; [vm_compute; reflexivity|].
  split; [vm_compute; reflexivity|].
  split; [vm_compute; reflexivity|]. split; [vm_compute; reflexivity|].
  match goal with
  | |- context [tick scenario_reversed ?st] =>
      destruct (C10_reversed_edge scenario_reversed
                  {| t_isPaused := false;
                     t_dimensions := {| width := 900; height := 700 |} |}
                  st (default {| lines := []; circles := [] |} (gRef st))
                  "A" "C" (nd 0 "A") (nd 2 "C"))
        as (g' & Hg' & _ & _ & _ & _ & H & _);
        [vm_compute; reflexivity | vm_compute; reflexivity | reflexivity
        | vm_compute; reflexivity | vm_compute; reflexivity
        | vm_compute; reflexivity | vm_compute; reflexivity |]
  end.
  exists g'. split; [exact Hg'|]. apply H. vm_compute. discriminate.
Defined.

(** C10 as stated fails: the step A-C walks the edge stored as (2, 0)
    backwards; at its firing the de-highlight selection matches the line of
    the earlier step A-B and reverts it, and, the step being the last, the
    index does not advance. *)
Lemma C10_reversed_edge_counterexample :
  ∃ st0, mount scenario_reversed = Some st0 ∧
    paths scenario_reversed !! currentIndexRef (ticks scenario_reversed 1 st0)
      = Some ("A", "C") ∧
    index <$> find_node scenario_reversed "A" = Some 0 ∧
    index <$> find_node scenario_reversed "C" = Some 2 ∧
    links (data scenario_reversed) = [lk 0 1; lk 2 0] ∧
    stroke_of 0 1 (ticks scenario_reversed 1 st0) = Some red ∧
    stroke_of 0 1 (ticks scenario_reversed 2 st0) = Some black ∧
    currentIndexRef (ticks scenario_reversed 1 st0) = 1 ∧
    currentIndexRef (ticks scenario_reversed 2 st0) = 1.
Proof. eexists. split_and!; reflexivity. Qed.

(** ** C9: resize *)

Lemma initial_fill_0 P l :
  initial_fill P 0 l =
    if label_is l (startNode P) then red
    else if label_is l (goalNode P) then green
    else white.
Proof. unfold initial_fill. by rewrite take_0. Qed.

Lemma draw_link_neutral P l e : draw_link P l = Some e → neutral e.
Proof.
  unfold draw_link. intros H.
  destruct (nodes (data P) !! source l); simplify_eq/=.
  destruct (nodes (data P) !! target l); simplify_eq/=. done.
Qed.

Lemma draw_link_key P l e :
  draw_link P l = Some e → line_source e = source l ∧ line_target e = target l.
Proof.
  unfold draw_link. intros H.
  destruct (nodes (data P) !! source l); simplify_eq/=.
  destruct (nodes (data P) !! target l); simplify_eq/=. done.
Qed.

(** Recolouring a scene whose circles have their initial colour, at index 0,
    changes nothing. *)
Lemma recolour_initial P cs :
  Forall (initial_colour P) cs →
  map (λ c, attr_fill (initial_fill P 0 (data_label c)) c) cs = cs.
Proof.
  induction 1 as [|c cs Hc _ IH]; simpl; [done|].
  rewrite IH, initial_fill_0, <- Hc. by destruct c.
Qed.

Lemma startAnimation_initial_scene P paused d st g :
  gRef st = Some g → Forall (initial_colour P) (circles g) →
  gRef (startAnimation P paused d st) = Some g.
Proof.
  intros Hg Hc. unfold startAnimation. rewrite Hg.
  destruct (paths P); [done|].
  destruct (decide (currentIndexRef st = 0)) as [Hi|Hi].
  - assert (gRef (setInitialNodeColors P st) = Some g) as Hg'.
    { unfold setInitialNodeColors. rewrite with_g_gRef, Hg, Hi. simpl.
      unfold on_circles. rewrite recolour_initial by done. by destruct g. }
    by case_match.
  - by case_match.
Qed.

(** The scene that [resize] leaves. *)
Lemma resize_scene P d st st' :
  resize P d st = Some st' →
  ∃ g', gRef st' = Some g' ∧
    Forall neutral (lines g') ∧ Forall (initial_colour P) (circles g') ∧
    (nodes (data P) ≠ [] →
       Forall2 (λ l e, line_source e = source l ∧ line_target e = target l)
               (links (data P)) (lines g') ∧
       circles g' = draw_node P <$> nodes (data P)).
Proof.
  unfold resize, drawGraph, zoom_effect. rewrite clearAnimation_eq. simpl.
  destruct (nodes (data P)) as [|n ns] eqn:Hn; simpl.
  - intros [= <-]. eexists. split.
    + by apply startAnimation_initial_scene.
    + by split_and!.
  - destruct (mapM _ _) as [ls|] eqn:Hm; simpl; [|done]. intros [= <-].
    assert (Forall (initial_colour P) (draw_node P <$> n :: ns)) as Hc.
    { apply Forall_fmap, Forall_forall. intros x _. done. }
    eexists. split.
    + by apply startAnimation_initial_scene.
    + apply mapM_Some_1 in Hm. simpl. split_and!; try done.
      * clear -Hm. induction Hm as [|l e ls es He _ IH]; constructor; [|done].
        by eapply draw_link_neutral.
      * intros _. split; [|done].
        eapply Forall2_impl; [exact Hm|]. intros l e. apply draw_link_key.
Qed.

(** C9 on the two-step run of the specification.  After the first firing B
    is filled as visited and the line A-B is active, at index 1.  A resize
    keeps the index and the flags and arms the interval again, but the scene
    it leaves is the freshly drawn one: B is white and A-B neutral.  The
    component's own recolouring rule ([setInitialNodeColors], which computes
    [hasBeenVisited] from the steps before the index) gives B the visited
    colour at index 1, and applying it to the resized state would restore
    it; it is only ever called at index 0.  After the run has completed, a
    resize leaves the completion flag set and yet arms an interval, whose
    next firing invokes the completion callback a second time. *)
Theorem C9_resize_loses_highlights :
  ∃ st0 st' st'',
    mount scenario_chain = Some st0 ∧
    resize scenario_chain (calculateDimensions 500 1024)
           (ticks scenario_chain 1 st0) = Some st' ∧
    resize scenario_chain (calculateDimensions 500 1024)
           (ticks scenario_chain 2 st0) = Some st'' ∧
    currentIndexRef (ticks scenario_chain 1 st0) = 1 ∧
    fill_of 1 (ticks scenario_chain 1 st0) = Some red ∧
    stroke_of 0 1 (ticks scenario_chain 1 st0) = Some red ∧
    currentIndexRef st' = 1 ∧ isPaused st' = false ∧ isComplete st' = false ∧
    animationRef st' =
      Some {| t_isPaused := false;
              t_dimensions := {| width := 500; height := 389 |} |} ∧
    fill_of 1 st' = Some white ∧
    stroke_of 0 1 st' = Some black ∧
    initial_fill scenario_chain (currentIndexRef st') "B" = red ∧
    fill_of 1 (setInitialNodeColors scenario_chain st') = Some red ∧
    isComplete (ticks scenario_chain 2 st0) = true ∧
    animationRef (ticks scenario_chain 2 st0) = None ∧
    completeCalls (ticks scenario_chain 2 st0) = 1 ∧
    isComplete st'' = true ∧
    animationRef st'' =
      Some {| t_isPaused := false;
              t_dimensions := {| width := 500; height := 389 |} |} ∧
    completeCalls (tick scenario_chain st'') = 2.
Proof.
  eexists _, _, _.
  split; [vm_compute; reflexivity|].
  split; [vm_compute; reflexivity|].
  split; [vm_compute; reflexivity|].
  split_and!; vm_compute; reflexivity.
Qed.

(** ** C4: the imperative handle *)

Lemma togglePause_empty P st :
  paths P = [] →
  togglePause P st = clearAnimation (setIsPaused (negb (isPaused st)) st).
Proof.
  intros E. unfold togglePause, startAnimation_effect, togglePause_handler.
  rewrite !(startAnimation_empty P) by done.
  rewrite !clearAnimation_eq. crush_state st. by destruct ip, ar.
Qed.

(** The scene [startAnimation] leaves at index 0, over a non-empty path
    sequence: [setInitialNodeColors] has run, and no step lies before index
    0, so every circle gets the start colour, the goal colour or white. *)
Lemma startAnimation_gRef_0 P paused d st g :
  currentIndexRef st = 0 → paths P ≠ [] → gRef st = Some g →
  gRef (startAnimation P paused d st) =
    Some {| lines := lines g;
            circles :=
              map (λ c, attr_fill
                          (if label_is (data_label c) (startNode P) then red
                           else if label_is (data_label c) (goalNode P)
                                then green else white) c)
                  (circles g) |}.
Proof.
  intros Hi Hne Hg. unfold startAnimation. rewrite Hg.
  destruct (paths P) as [|p ps]; [done|].
  rewrite decide_True by done.
  assert (gRef (setInitialNodeColors P st) =
            Some {| lines := lines g;
                    circles :=
                      map (λ c, attr_fill
                          (if label_is (data_label c) (startNode P) then red
                           else if label_is (data_label c) (goalNode P)
                                then green else white) c)
                          (circles g) |}) as Hg'.
  { unfold setInitialNodeColors. rewrite with_g_gRef, Hg, Hi. simpl.
    reflexivity. }
  by case_match.
Qed.

Lemma control_run_defined P es :
  Forall (λ e, e = TogglePause ∨ e = ResetVisualization) es →
  ∀ st, is_Some (run P es st).
Proof.
  induction 1 as [|e es [-> | ->] _ IH]; intros st; simpl; [by eexists|..];
    apply IH.
Qed.

(** C4, as the code has it.  Calls of [togglePause] and
    [resetVisualization], in any number and any order, are defined from every
    state, also from one that has no group yet, where they touch no scene and
    arm nothing.  In every state [togglePause] flips the paused flag and
    leaves the index, the completion flag, the callback count and every line
    as they are.  It leaves the circles as they are when the index is not 0;
    at index 0, over a non-empty path sequence, it applies the initial node
    colours again: every circle is repainted red for the start label, green
    for the goal label and white otherwise, so a visited colour is lost.
    With an empty path sequence it only flips the flag and disarms; with a
    non-empty one it leaves an interval armed, also when the controller was
    idle or complete, whose callback does nothing while the flag is set. *)
Theorem C4_control_surface P st :
  (∀ es, Forall (λ e, e = TogglePause ∨ e = ResetVisualization) es →
         is_Some (run P es st)) ∧
  (gRef st = None →
     gRef (togglePause P st) = None ∧ animationRef (togglePause P st) = None ∧
     gRef (resetVisualization P st) = None ∧
     animationRef (resetVisualization P st) = None) ∧
  currentIndexRef (togglePause P st) = currentIndexRef st ∧
  isPaused (togglePause P st) = negb (isPaused st) ∧
  isComplete (togglePause P st) = isComplete st ∧
  completeCalls (togglePause P st) = completeCalls st ∧
  lines <$> gRef (togglePause P st) = lines <$> gRef st ∧
  (currentIndexRef st ≠ 0 → gRef (togglePause P st) = gRef st) ∧
  (currentIndexRef st = 0 → paths P ≠ [] → ∀ g, gRef st = Some g →
     gRef (togglePause P st) =
       Some {| lines := lines g;
               circles :=
                 map (λ c, attr_fill
                             (if label_is (data_label c) (startNode P) then red
                              else if label_is (data_label c) (goalNode P)
                                   then green else white) c)
                     (circles g) |}) ∧
  (paths P = [] →
     togglePause P st = clearAnimation (setIsPaused (negb (isPaused st)) st)) ∧
  (paths P ≠ [] → is_Some (gRef st) →
     animationRef (togglePause P st) =
       Some {| t_isPaused := negb (isPaused st);
               t_dimensions := dimensions st |} ∧
     (isPaused st = false → tick P (togglePause P st) = togglePause P st)).
Proof.
  pose proof (togglePause_fields P st) as (Hd&Hs&Hc&Hp&Hi&Hn&Hl&Hg&Hk&Ha).
  split_and!; try done.
  - intros es Hes. by apply control_run_defined.
  - intros Eg. rewrite Eg in Hl, Ha. split_and!.
    + by destruct (gRef (togglePause P st)).
    + done.
    + unfold resetVisualization.
      assert (gRef (resetVisualization_handler P st) = None) as Hr.
      { unfold resetVisualization_handler, setInitialNodeColors.
        rewrite !with_g_gRef, clearAnimation_eq. simpl. by rewrite Eg. }
      destruct (isPaused st); [|done].
      pose proof (startAnimation_effect_fields P (resetVisualization_handler P st))
        as (_&_&_&_&_&_&Hl'&_).
      rewrite Hr in Hl'. by destruct (gRef (startAnimation_effect P _)).
    + unfold resetVisualization.
      pose proof (resetVisualization_handler_fields P st) as (_&_&_&_&_&_&Hr&_).
      assert (gRef (resetVisualization_handler P st) = None) as Hr'.
      { unfold resetVisualization_handler, setInitialNodeColors.
        rewrite !with_g_gRef, clearAnimation_eq. simpl. by rewrite Eg. }
      destruct (isPaused st); [|done].
      pose proof (startAnimation_effect_fields P (resetVisualization_handler P st))
        as (_&_&_&_&_&_&_&_&_&->).
      by rewrite Hr'.
  - intros Hi0 Hne g Eg. unfold togglePause, startAnimation_effect.
    pose proof (togglePause_handler_fields P st) as (_&_&_&_&Hi'&_&Hl'&_).
    set (h := togglePause_handler P st) in *.
    assert (gRef h = Some g ∨
            gRef h = Some {| lines := lines g;
               circles :=
                 map (λ c, attr_fill
                             (if label_is (data_label c) (startNode P) then red
                              else if label_is (data_label c) (goalNode P)
                                   then green else white) c)
                     (circles g) |}) as Hh.
    { subst h. unfold togglePause_handler. rewrite clearAnimation_eq.
      destruct (isPaused st); [|by left].
      destruct (animationRef (setIsPaused (negb true) st)); [by left|].
      right. by apply startAnimation_gRef_0. }
    assert (currentIndexRef (clearAnimation h) = 0) as Hi''
      by (rewrite clearAnimation_eq; simpl; congruence).
    destruct Hh as [Hh|Hh].
    + apply startAnimation_gRef_0; [done|done|].
      by rewrite clearAnimation_eq.
    + erewrite startAnimation_gRef_0; [|done|done|by rewrite clearAnimation_eq].
      simpl. do 2 f_equal. rewrite map_map. apply map_ext. intros c. done.
  - by apply togglePause_empty.
  - intros Hne [g Eg].
    assert (animationRef (togglePause P st) =
              Some {| t_isPaused := negb (isPaused st);
                      t_dimensions := dimensions st |}) as Ha'.
    { rewrite Ha, Eg. by destruct (paths P). }
    split; [done|]. intros Hpaused. unfold tick. rewrite Ha'.
    apply animate_paused. by rewrite Hpaused.
Qed.

Lemma C4_control_surface_witness :
  ∃ st0, mount scenario_single = Some st0 ∧
    currentIndexRef (tick scenario_single st0) = 0 ∧
    fill_of 1 (tick scenario_single st0) = Some red ∧
    fill_of 1 (togglePause scenario_single (tick scenario_single st0)) =
      Some white ∧
    animationRef (togglePause scenario_single (tick scenario_single st0)) =
      Some {| t_isPaused := true;
              t_dimensions := {| width := 900; height := 700 |} |}.
Proof.
  eexists. split; [vm_compute; reflexivity|].
  split; [vm_compute; reflexivity|].
  split; [vm_compute; reflexivity|].
  match goal with
  | |- fill_of 1 (togglePause _ ?s) = _ ∧ _ =>
      destruct (C4_control_surface scenario_single s)
        as (_ & _ & _ & _ & _ & _ & _ & _ & Hrepaint & _ & Harmed);
      destruct Harmed as [Ha _];
        [discriminate | vm_compute; by eexists |];
      destruct (gRef s) as [g|] eqn:Eg; [|vm_compute in Eg; discriminate];
      pose proof (Hrepaint ltac:(vm_compute; reflexivity)
                           ltac:(discriminate) g eq_refl) as Hg;
      unfold fill_of; rewrite Hg, Ha
  end.
  vm_compute in Eg. injection Eg as <-.
  split; vm_compute; reflexivity.
Defined.

(** C4 as stated fails on the no-op: after the one-step run has completed
    (no interval armed, B filled as visited), [togglePause] leaves an interval
    armed and, the index being 0, resets B to white. *)
Lemma C4_control_surface_counterexample :
  ∃ st0, mount scenario_single = Some st0 ∧
    isComplete (tick scenario_single st0) = true ∧
    animationRef (tick scenario_single st0) = None ∧
    fill_of 1 (tick scenario_single st0) = Some red ∧
    animationRef (togglePause scenario_single (tick scenario_single st0)) =
      Some {| t_isPaused := true;
              t_dimensions := {| width := 900; height := 700 |} |} ∧
    fill_of 1 (togglePause scenario_single (tick scenario_single st0)) =
      Some white.
Proof. eexists. split_and!; reflexivity. Qed.

(** ** C1: start and goal colours *)

(** Whatever the label of the target, a firing whose step resolves fills the
    first circle that carries the target's id with the colour of visited
    nodes. *)
Lemma tick_fills_target P t st g src tgt sN tN :
  gRef st = Some g → animationRef st = Some t → t_isPaused t = false →
  paths P !! currentIndexRef st = Some (src, tgt) →
  find_node P src = Some sN → find_node P tgt = Some tN →
  fill_of (index tN) (tick P st) = (λ _, red) <$> fill_of (index tN) st.
Proof.
  intros Hg Ha Hp Hi Hs Ht. unfold fill_of, tick.
  destruct (apply_step_resolved P t st g src tgt sN tN Hg Hi Hs Ht) as [Hg' _].
  rewrite Ha, animate_gRef, Hg', Hg by done. simpl.
  apply circle_fill_select_same.
Qed.

(** The start half of C1 holds: nothing ever gives a circle that carries the
    start label another colour than the start colour (which is also the
    colour of visited nodes). *)

Lemma start_red_on_lines P f g : start_red P g → start_red P (on_lines f g).
Proof. done. Qed.

Lemma start_red_select_circle P i g :
  start_red P g → start_red P (on_circles (select_circle i (attr_fill red)) g).
Proof.
  unfold start_red. destruct g as [ls cs]. simpl.
  induction 1 as [|c cs Hc Hcs IH]; simpl; [done|].
  case_decide; constructor; done.
Qed.

Lemma start_red_initial P k g :
  start_red P
    (on_circles (map (λ c, attr_fill (initial_fill P k (data_label c)) c)) g).
Proof.
  unfold start_red. destruct g as [ls cs]. simpl.
  apply Forall_fmap, Forall_forall. intros c _. simpl.
  unfold initial_fill. by intros ->.
Qed.

Lemma start_red_reset P g : start_red P (on_circles (map (reset_fill P)) g).
Proof.
  unfold start_red. destruct g as [ls cs]. simpl.
  apply Forall_fmap, Forall_forall. intros c _. simpl.
  unfold reset_fill. simpl.
  destruct (label_is (data_label c) (startNode P)) eqn:Hs; simpl; [done|].
  destruct (label_is (data_label c) (goalNode P)); simpl; by rewrite Hs.
Qed.

Lemma start_red_of_initial P g :
  Forall (initial_colour P) (circles g) → start_red P g.
Proof.
  unfold start_red. intros H. eapply Forall_impl; [exact H|].
  intros c Hc Hl. simpl in *. by rewrite Hc, Hl.
Qed.

Lemma setInitialNodeColors_start_kept P st :
  start_kept P (setInitialNodeColors P st).
Proof.
  intros g. unfold setInitialNodeColors. rewrite with_g_gRef.
  destruct (gRef st); intros [= <-]. apply start_red_initial.
Qed.

Lemma startAnimation_start_kept P paused d st :
  start_kept P st → start_kept P (startAnimation P paused d st).
Proof.
  intros Hk. unfold startAnimation.
  destruct (gRef st) eqn:Hg; [|done]. destruct (paths P); [done|].
  pose proof (setInitialNodeColors_start_kept P st) as Hk'.
  case_decide; case_match; done.
Qed.

Lemma clearAnimation_start_kept P st :
  start_kept P st → start_kept P (clearAnimation st).
Proof. by rewrite clearAnimation_eq. Qed.

Lemma apply_step_start_kept P t st :
  start_kept P st → start_kept P (apply_step P t st).
Proof.
  intros Hk. unfold apply_step. repeat case_match; try done.
  intros g. simpl. rewrite !with_g_gRef.
  destruct (gRef st) as [g0|] eqn:Hg; intros [= <-].
  apply start_red_select_circle, start_red_on_lines, start_red_on_lines.
  by apply Hk.
Qed.

Lemma tick_start_kept P st : start_kept P st → start_kept P (tick P st).
Proof.
  intros Hk. unfold tick. destruct (animationRef st) as [t|]; [|done].
  destruct (t_isPaused t) eqn:Hp; [by rewrite animate_paused|].
  intros g. rewrite animate_gRef by done. by apply apply_step_start_kept.
Qed.

Lemma togglePause_start_kept P st :
  start_kept P st → start_kept P (togglePause P st).
Proof.
  intros Hk. unfold togglePause, startAnimation_effect, togglePause_handler.
  apply startAnimation_start_kept, clearAnimation_start_kept.
  destruct (isPaused st); [case_match|];
    try apply startAnimation_start_kept; try apply clearAnimation_start_kept;
    done.
Qed.

Lemma resetVisualization_start_kept P st :
  start_kept P (resetVisualization P st).
Proof.
  assert (start_kept P (resetVisualization_handler P st)) as Hk.
  { intros g. unfold resetVisualization_handler. rewrite with_g_gRef.
    destruct (gRef _); intros [= <-]. apply start_red_reset. }
  unfold resetVisualization. destruct (isPaused st); [|done].
  by apply startAnimation_start_kept, clearAnimation_start_kept.
Qed.

Lemma resize_start_kept P d st st' :
  resize P d st = Some st' → start_kept P st'.
Proof.
  intros (g'&Hg&_&Hc&_)%resize_scene g. rewrite Hg. intros [= <-].
  by apply start_red_of_initial.
Qed.

Lemma mount_start_kept P st0 : mount P = Some st0 → start_kept P st0.
Proof.
  unfold mount, drawGraph, zoom_effect. simpl.
  destruct (nodes (data P)) as [|n ns]; simpl.
  - intros [= <-]. apply startAnimation_start_kept. intros g [= <-].
    by constructor.
  - destruct (mapM _ _); simpl; [|done]. intros [= <-].
    apply startAnimation_start_kept. intros g [= <-].
    apply start_red_of_initial.
    change (Forall (initial_colour P) (draw_node P <$> n :: ns)).
    apply Forall_fmap, Forall_forall. by intros c _.
Qed.

Lemma start_colour_kept P st : reachable P st → start_kept P st.
Proof.
  intros (st0&es&Hm&Hr). apply mount_start_kept in Hm.
  revert st0 Hm Hr. induction es as [|e es IH]; simpl; intros st0 Hk Hr.
  - by simplify_eq.
  - destruct (step P e st0) as [st1|] eqn:Hs; simplify_eq/=.
    eapply IH; [|done].
    destruct e; simpl in Hs; simplify_eq;
      eauto using tick_start_kept, togglePause_start_kept,
                  resetVisualization_start_kept, resize_start_kept.
Qed.

(** C1 on the two-step run of the specification (start A, goal C): the goal
    circle is green after mounting and after the first firing, and red after
    the second firing, whose step targets it; [setInitialNodeColors] at the
    same position keeps the goal green. *)
Theorem C1_goal_colour_overwritten :
  ∃ st0, mount scenario_chain = Some st0 ∧
    goalNode scenario_chain = Some "C" ∧
    find_node scenario_chain "C" = Some (nd 2 "C") ∧
    paths scenario_chain !! 1 = Some ("B", "C") ∧
    fill_of 2 st0 = Some green ∧
    fill_of 2 (ticks scenario_chain 1 st0) = Some green ∧
    fill_of 2 (ticks scenario_chain 2 st0) = Some red ∧
    initial_fill scenario_chain 2 "C" = green ∧
    fill_of 2 (setInitialNodeColors scenario_chain (ticks scenario_chain 2 st0))
      = Some green.
Proof. eexists. split_and!; reflexivity. Qed.

(** ** C5: stepping *)

(** What a firing shows of the step it applies, when the step resolves: the
    step text, the first line that carries the id of the step (if there is
    one) active, the first circle that carries the id of the target red. *)
Lemma tick_applies_step P t st src tgt sN tN :
  animationRef st = Some t → t_isPaused t = false →
  paths P !! currentIndexRef st = Some (src, tgt) →
  find_node P src = Some sN → find_node P tgt = Some tN →
  currentStep (tick P st) =
    Some ("From Node: " +:+ src +:+ " to Node: " +:+ tgt) ∧
  stroke_of (index sN) (index tN) (tick P st) =
    (λ _, red) <$> stroke_of (index sN) (index tN) st ∧
  fill_of (index tN) (tick P st) = (λ _, red) <$> fill_of (index tN) st.
Proof.
  intros Ha Hp Hi Hs Ht. split.
  { unfold tick. rewrite Ha, animate_currentStep by done.
    unfold apply_step. by rewrite Hi, Hs, Ht. }
  destruct (gRef st) as [g|] eqn:Hg.
  - split; [|by eapply tick_fills_target].
    unfold stroke_of, tick.
    destruct (apply_step_resolved P t st g src tgt sN tN Hg Hi Hs Ht) as [Hg' _].
    rewrite Ha, animate_gRef, Hg', Hg by done. simpl.
    rewrite line_stroke_select_same, dehighlight_prev_key.
    destruct (prev_key P (currentIndexRef st) src) as [[a b]|] eqn:Hk.
    + destruct (decide (a = index sN ∧ b = index tN)) as [[-> ->]|Hne].
      * rewrite line_stroke_select_same.
        by destruct (line_stroke (index sN) (index tN) (lines g)).
      * rewrite line_stroke_select_other by done.
        by destruct (line_stroke (index sN) (index tN) (lines g)).
    + by destruct (line_stroke (index sN) (index tN) (lines g)).
  - assert (gRef (tick P st) = None) as Hg'.
    { unfold tick. rewrite Ha, animate_gRef by done.
      unfold apply_step. rewrite Hi, Hs, Ht. simpl.
      by rewrite !with_g_gRef, Hg. }
    unfold stroke_of, fill_of. by rewrite Hg', Hg.
Qed.

(** C5, as the code has it.  Firings of the interval, pause toggles and
    resizes never decrease the index.  A firing that runs unpaused applies
    the step at the index, at every position: the scene and the step text
    after it are those [apply_step] gives, so a step that resolves leaves its
    text shown, its line active and its target red.  Before the last
    position the firing then increases the index by exactly one; at the last
    position it marks the run complete, disarms the interval and leaves the
    index where it is.  So from the start of a run (as after mounting) over a
    sequence of length len >= 1: before firing n + 1 <= len the index is n
    and an unpaused interval is armed, which makes that firing the one that
    applies step n, the last one included; and after n firings the index is
    min n (len - 1) and min n len steps have been applied. *)
Theorem C5_stepping P :
  (∀ e st st', is_reset e = false → step P e st = Some st' →
               currentIndexRef st ≤ currentIndexRef st') ∧
  (∀ st t, animationRef st = Some t → t_isPaused t = false →
      (S (currentIndexRef st) < length (paths P) →
         tick P st = set_currentIndexRef (S (currentIndexRef st))
                                         (apply_step P t st)) ∧
      (length (paths P) ≤ S (currentIndexRef st) →
         tick P st =
           call_onComplete P
             (clearAnimation (setIsComplete true (apply_step P t st))) ∧
         currentIndexRef (tick P st) = currentIndexRef st ∧
         isComplete (tick P st) = true ∧ animationRef (tick P st) = None) ∧
      gRef (tick P st) = gRef (apply_step P t st) ∧
      currentStep (tick P st) = currentStep (apply_step P t st) ∧
      (∀ src tgt sN tN,
         paths P !! currentIndexRef st = Some (src, tgt) →
         find_node P src = Some sN → find_node P tgt = Some tN →
         currentStep (tick P st) =
           Some ("From Node: " +:+ src +:+ " to Node: " +:+ tgt) ∧
         stroke_of (index sN) (index tN) (tick P st) =
           (λ _, red) <$> stroke_of (index sN) (index tN) st ∧
         fill_of (index tN) (tick P st) =
           (λ _, red) <$> fill_of (index tN) st)) ∧
  (∀ st0, mount P = Some st0 → paths P ≠ [] → run_start P st0) ∧
  (∀ st0 n, run_start P st0 →
      currentIndexRef (ticks P n st0) = Nat.min n (length (paths P) - 1) ∧
      steps_applied (ticks P n st0) = Nat.min n (length (paths P)) ∧
      (n < length (paths P) →
         currentIndexRef (ticks P n st0) = n ∧
         ∃ t, animationRef (ticks P n st0) = Some t ∧ t_isPaused t = false)).
Proof.
  split_and!.
  - intros e st st' He Hs. destruct e; simpl in *; simplify_eq.
    + unfold tick. destruct (animationRef st) as [t|]; [|done].
      destruct (t_isPaused t) eqn:Hp; [by rewrite animate_paused|].
      pose proof (animate_fields P t st Hp) as (_&_&Hadv&Hcpl).
      destruct (decide (S (currentIndexRef st) < length (paths P))) as [H|H].
      * destruct (Hadv H) as (->&_). lia.
      * destruct Hcpl as (->&_); [lia|done].
    + by pose proof (togglePause_fields P st) as (_&_&_&_&->&_).
    + by apply resize_fields in Hs as (_&_&_&_&->&_).
  - intros st t Ha Hp. split_and!.
    + intros H. unfold tick. rewrite Ha. by apply animate_advance.
    + intros H. unfold tick. rewrite Ha.
      pose proof (animate_fields P t st Hp) as (_&_&_&Hcpl).
      destruct (Hcpl H) as (->&->&->&_).
      split; [by apply animate_complete|done].
    + unfold tick. rewrite Ha. by apply animate_gRef.
    + unfold tick. rewrite Ha. by apply animate_currentStep.
    + intros src tgt sN tN. by apply (tick_applies_step P t).
  - intros st0 Hm Hne. by apply mount_run_start.
  - intros st0 n Hs.
    pose proof (ticks_from_start P st0 n Hs) as (Hi&_&_&Han).
    split_and!.
    + done.
    + by apply steps_applied_from_start.
    + intros Hlt. split; [lia|].
      destruct Hs as (_&_&_&_&_&t&Ha&Hp). exists t.
      case_match eqn:E; [apply Nat.leb_le in E; lia|]. by rewrite Han.
Qed.

Lemma C5_stepping_witness :
  ∃ st0, mount scenario_fan = Some st0 ∧
         currentIndexRef (ticks scenario_fan 1 st0) = 1 ∧
         currentIndexRef (ticks scenario_fan 3 st0) = 2 ∧
         currentStep (tick scenario_fan (ticks scenario_fan 2 st0)) =
           Some "From Node: A to Node: D" ∧
         stroke_of 0 3 (tick scenario_fan (ticks scenario_fan 2 st0)) =
           Some red.
Proof.
  eexists. split; [vm_compute; reflexivity|].
  pose proof (C5_stepping scenario_fan) as (_&Hstep&Hs&H).
  match goal with
  | |- currentIndexRef (ticks _ _ ?s) = _ ∧ _ =>
      assert (run_start scenario_fan s) as Hrs
        by (apply Hs; [vm_compute; reflexivity | discriminate]);
      pose proof (H s 1 Hrs) as (H1 & _);
      pose proof (H s 3 Hrs) as (H3 & _);
      destruct (H s 2 Hrs) as (_ & _ & Harm);
      destruct Harm as (Hi & t & Ha & Hp); [vm_compute; lia|];
      destruct (Hstep (ticks scenario_fan 2 s) t Ha Hp)
        as (_ & _ & _ & _ & Hshow);
      destruct (Hshow "A" "D" (nd 0 "A") (nd 3 "D")) as (Htxt & Hstroke & _);
        [ rewrite Hi; reflexivity | reflexivity | reflexivity |];
      change (index (nd 0 "A")) with 0 in Hstroke;
      change (index (nd 3 "D")) with 3 in Hstroke;
      rewrite H1, H3, Htxt, Hstroke
  end.
  split_and!; vm_compute; reflexivity.
Defined.

(** C5 as stated fails: over the two-step sequence the second firing runs
    while the interval is armed and unpaused, and leaves the index at 1; the
    run is then complete with the index at 1, not 2. *)
Lemma C5_stepping_counterexample :
  ∃ st0, mount scenario_chain = Some st0 ∧
    length (paths scenario_chain) = 2 ∧
    currentIndexRef (ticks scenario_chain 1 st0) = 1 ∧
    t_isPaused <$> animationRef (ticks scenario_chain 1 st0) = Some false ∧
    currentIndexRef (ticks scenario_chain 2 st0) = 1 ∧
    isComplete (ticks scenario_chain 2 st0) = true.
Proof. eexists. split_and!; reflexivity. Qed.

(** * Further properties of the component *)

Lemma State_eq st st' :
  gRef st = gRef st' → dimensions st = dimensions st' →
  currentStep st = currentStep st' → isComplete st = isComplete st' →
  isPaused st = isPaused st' → animationRef st = animationRef st' →
  currentIndexRef st = currentIndexRef st' →
  completeCalls st = completeCalls st' → st = st'.
Proof. destruct st, st'; simpl; intros; by subst. Qed.

(** ** Stable identifiers *)

Lemma select_line_ids s t c w ls :
  (λ l, (line_source l, line_target l)) <$> select_line s t (attr_stroke c w) ls
  = (λ l, (line_source l, line_target l)) <$> ls.
Proof.
  induction ls as [|l ls IH]; csimpl; [done|].
  case_decide; csimpl; [done|]. by rewrite IH.
Qed.

Lemma select_circle_ids i c cs :
  (λ e, (circle_index e, data_label e)) <$> select_circle i (attr_fill c) cs
  = (λ e, (circle_index e, data_label e)) <$> cs.
Proof.
  induction cs as [|e cs IH]; csimpl; [done|].
  case_decide; csimpl; [done|]. by rewrite IH.
Qed.

Lemma dehighlight_ids P i src ls :
  (λ l, (line_source l, line_target l)) <$> dehighlight P i src ls
  = (λ l, (line_source l, line_target l)) <$> ls.
Proof.
  rewrite dehighlight_prev_key.
  destruct (prev_key P i src) as [[a b]|]; [|done]. apply select_line_ids.
Qed.

Lemma reset_fill_ids P cs :
  (λ e, (circle_index e, data_label e)) <$> map (reset_fill P) cs
  = (λ e, (circle_index e, data_label e)) <$> cs.
Proof.
  induction cs as [|e cs IH]; csimpl; [done|]. rewrite IH. f_equal.
  unfold reset_fill. by case_match.
Qed.

(** The identifiers carried by the group of a state. *)
Lemma setInitialNodeColors_ids P st :
  (λ g, (line_ids g, circle_ids g)) <$> gRef (setInitialNodeColors P st)
  = (λ g, (line_ids g, circle_ids g)) <$> gRef st.
Proof.
  unfold setInitialNodeColors. rewrite with_g_gRef.
  destruct (gRef st) as [[ls cs]|]; [|done]. simpl. do 2 f_equal.
  unfold circle_ids. simpl. induction cs as [|c cs IH]; csimpl; [done|].
  by rewrite IH.
Qed.

Lemma startAnimation_ids P paused d st :
  (λ g, (line_ids g, circle_ids g)) <$> gRef (startAnimation P paused d st)
  = (λ g, (line_ids g, circle_ids g)) <$> gRef st.
Proof.
  unfold startAnimation.
  destruct (gRef st) eqn:Hg; [|by rewrite Hg].
  destruct (paths P); [by rewrite Hg|].
  pose proof (setInitialNodeColors_ids P st) as Hi. rewrite Hg in Hi.
  case_decide; case_match; simpl; by rewrite ?Hi, ?Hg.
Qed.

Lemma apply_step_ids P t st :
  (λ g, (line_ids g, circle_ids g)) <$> gRef (apply_step P t st)
  = (λ g, (line_ids g, circle_ids g)) <$> gRef st.
Proof.
  unfold apply_step. repeat case_match; try done. simpl.
  rewrite !with_g_gRef. destruct (gRef st) as [[ls cs]|]; [|done]. simpl.
  unfold line_ids, circle_ids. simpl.
  by rewrite select_line_ids, dehighlight_ids, select_circle_ids.
Qed.

Lemma tick_ids P st :
  (λ g, (line_ids g, circle_ids g)) <$> gRef (tick P st)
  = (λ g, (line_ids g, circle_ids g)) <$> gRef st.
Proof.
  unfold tick. destruct (animationRef st) as [t|]; [|done].
  destruct (t_isPaused t) eqn:Hp; [by rewrite animate_paused|].
  rewrite animate_gRef by done. apply apply_step_ids.
Qed.

Lemma togglePause_ids P st :
  (λ g, (line_ids g, circle_ids g)) <$> gRef (togglePause P st)
  = (λ g, (line_ids g, circle_ids g)) <$> gRef st.
Proof.
  unfold togglePause, startAnimation_effect, togglePause_handler.
  rewrite startAnimation_ids, !clearAnimation_eq. simpl.
  destruct (isPaused st); [|done].
  case_match; [done|]. by rewrite startAnimation_ids.
Qed.

Lemma resetVisualization_handler_gRef P st :
  gRef (resetVisualization_handler P st) =
    (λ g, {| lines := map (attr_stroke black 1%Z) (lines g);
             circles := map (reset_fill P) (circles g) |}) <$> gRef st.
Proof.
  unfold resetVisualization_handler, setInitialNodeColors.
  rewrite !with_g_gRef, clearAnimation_eq. simpl.
  destruct (gRef st) as [[ls cs]|]; [|done]. simpl. f_equal.
  unfold on_circles, on_lines. simpl. f_equal.
  rewrite map_map. apply map_ext. intros c.
  unfold reset_fill. simpl. by repeat case_match.
Qed.

Lemma resetVisualization_ids P st :
  (λ g, (line_ids g, circle_ids g)) <$> gRef (resetVisualization P st)
  = (λ g, (line_ids g, circle_ids g)) <$> gRef st.
Proof.
  assert ((λ g, (line_ids g, circle_ids g)) <$> gRef (resetVisualization_handler P st)
          = (λ g, (line_ids g, circle_ids g)) <$> gRef st) as Hh.
  { rewrite resetVisualization_handler_gRef.
    destruct (gRef st) as [[ls cs]|]; [|done]. simpl.
    unfold line_ids, circle_ids. simpl. rewrite reset_fill_ids. do 2 f_equal.
    induction ls as [|l ls IH]; csimpl; [done|]. by rewrite IH. }
  unfold resetVisualization. destruct (isPaused st); [|done].
  unfold startAnimation_effect.
  by rewrite startAnimation_ids, clearAnimation_eq.
Qed.

Lemma drawGraph_gRef P st st' :
  is_Some (gRef st) → drawGraph P st = Some st' →
  gRef st' = match nodes (data P) with
             | [] => gRef st
             | _ :: _ => Some (drawn_scene P)
             end.
Proof.
  intros [g Hg]. unfold drawGraph, drawn_scene. rewrite Hg.
  destruct (nodes (data P)) as [|n ns] eqn:Hn; [by intros [= <-]|].
  destruct (mapM _ _) as [ls|] eqn:Hm; simpl; [|done]. intros [= <-]. simpl.
  do 2 f_equal. apply mapM_Some_1 in Hm.
  induction Hm as [|l e lks ls He _ IH]; simpl; [done|]. rewrite IH. f_equal.
  unfold draw_link in He. rewrite Hn in He.
  destruct ((n :: ns) !! source l); simplify_eq/=.
  destruct ((n :: ns) !! target l); simplify_eq/=. done.
Qed.

Lemma drawn_scene_initial P : Forall (initial_colour P) (circles (drawn_scene P)).
Proof.
  unfold drawn_scene. destruct (nodes (data P)) as [|n ns]; simpl; [done|].
  change (Forall (initial_colour P) (draw_node P <$> n :: ns)).
  apply Forall_fmap, Forall_forall. by intros c _.
Qed.

Lemma mount_gRef P st0 : mount P = Some st0 → gRef st0 = Some (drawn_scene P).
Proof.
  unfold mount. intros H.
  destruct (drawGraph _ _) as [st|] eqn:Hdraw; simplify_eq/=.
  apply drawGraph_gRef in Hdraw; [|by eexists]. simpl in Hdraw.
  apply startAnimation_initial_scene.
  - rewrite Hdraw. unfold drawn_scene. by destruct (nodes (data P)).
  - apply drawn_scene_initial.
Qed.

Lemma resize_gRef P d st st' :
  resize P d st = Some st' → gRef st' = Some (drawn_scene P).
Proof.
  unfold resize. intros H.
  destruct (drawGraph _ _) as [st2|] eqn:Hdraw; simplify_eq/=.
  apply drawGraph_gRef in Hdraw; [|by eexists]. simpl in Hdraw.
  apply startAnimation_initial_scene.
  - rewrite Hdraw. unfold drawn_scene. by destruct (nodes (data P)).
  - apply drawn_scene_initial.
Qed.

(** X1.  In every state of a run the group holds exactly the elements that
    [drawGraph] drew, in the same order: the playback changes styles, it
    never adds, removes, reorders or relabels an element. *)
Theorem X1_elements_are_stable P st :
  reachable P st →
  ∃ g, gRef st = Some g ∧
       line_ids g = line_ids (drawn_scene P) ∧
       circle_ids g = circle_ids (drawn_scene P).
Proof.
  intros (st0&es&Hm&Hr).
  assert ((λ g, (line_ids g, circle_ids g)) <$> gRef st
          = Some (line_ids (drawn_scene P), circle_ids (drawn_scene P))) as H.
  { apply mount_gRef in Hm.
    assert ((λ g, (line_ids g, circle_ids g)) <$> gRef st0
            = Some (line_ids (drawn_scene P), circle_ids (drawn_scene P))) as H0
      by by rewrite Hm.
    clear Hm. revert st0 H0 Hr.
    induction es as [|e es IH]; simpl; intros st0 H0 Hr; [by simplify_eq|].
    destruct (step P e st0) as [st1|] eqn:Hs; simplify_eq/=.
    eapply IH; [|done].
    destruct e; simpl in Hs; simplify_eq.
    - by rewrite tick_ids.
    - by rewrite togglePause_ids.
    - by rewrite resetVisualization_ids.
    - apply resize_gRef in Hs. by rewrite Hs. }
  destruct (gRef st) as [g|]; simplify_eq/=. by exists g.
Qed.

Lemma X1_elements_are_stable_witness :
  ∃ st0 g, mount scenario_fan = Some st0 ∧
    gRef (ticks scenario_fan 3 st0) = Some g ∧
    line_ids g = [(0, 1); (0, 2); (0, 3)] ∧
    circle_ids g = [(0, "A"); (1, "B"); (2, "C"); (3, "D")].
Proof.
  eexists _, _. split; [vm_compute; reflexivity|].
  split; [vm_compute; reflexivity|].
  match goal with
  | |- context [line_ids ?g0] =>
      destruct (X1_elements_are_stable scenario_fan
                  (ticks scenario_fan 3
                     (default init_state (mount scenario_fan))))
        as (g & Hg & Hl & Hc);
        [eexists _, [Tick; Tick; Tick];
         split; [vm_compute; reflexivity | vm_compute; reflexivity]|];
      assert (g = g0) as <- by (vm_compute in Hg; congruence)
  end.
  split; [exact Hl | exact Hc].
Defined.

(** ** Reset *)

Lemma neutral_by_ids (ls ls' : list LineEl) :
  (λ l, (line_source l, line_target l)) <$> ls
    = (λ l, (line_source l, line_target l)) <$> ls' →
  map (attr_stroke black 1%Z) ls = map (attr_stroke black 1%Z) ls'.
Proof.
  revert ls'. induction ls as [|l ls IH]; intros [|l' ls']; csimpl; try done.
  intros [= Hs Ht Hr]. rewrite (IH ls' Hr). f_equal.
  unfold attr_stroke. by rewrite Hs, Ht.
Qed.

Lemma reset_fill_by_ids P (cs cs' : list CircleEl) :
  (λ e, (circle_index e, data_label e)) <$> cs
    = (λ e, (circle_index e, data_label e)) <$> cs' →
  map (reset_fill P) cs = map (reset_fill P) cs'.
Proof.
  revert cs'. induction cs as [|c cs IH]; intros [|c' cs']; csimpl; try done.
  intros [= Hi Hl Hr]. rewrite (IH cs' Hr). f_equal.
  unfold reset_fill, attr_fill. simpl. by rewrite Hi, Hl.
Qed.

Lemma drawn_scene_reset P :
  {| lines := map (attr_stroke black 1%Z) (lines (drawn_scene P));
     circles := map (reset_fill P) (circles (drawn_scene P)) |} = drawn_scene P.
Proof.
  unfold drawn_scene. destruct (nodes (data P)) as [|n ns]; [done|].
  generalize (n :: ns). intros l. simpl. f_equal.
  - rewrite map_map. by apply map_ext.
  - unfold fmap. rewrite map_map. apply map_ext. intros x.
    unfold reset_fill, draw_node. simpl. by repeat case_match.
Qed.

(** X2.  Reset at any point of a run reproduces the drawing of a freshly
    mounted component: the group is again the scene [drawGraph] draws, the
    index is 0, the step text is cleared, the run is neither complete nor
    paused; and unless the component was paused no interval is left armed. *)
Theorem X2_reset_restores_drawn_scene P st :
  reachable P st →
  gRef (resetVisualization P st) = Some (drawn_scene P) ∧
  (∀ st0, mount P = Some st0 → gRef (resetVisualization P st) = gRef st0) ∧
  currentIndexRef (resetVisualization P st) = 0 ∧
  currentStep (resetVisualization P st) = None ∧
  isComplete (resetVisualization P st) = false ∧
  isPaused (resetVisualization P st) = false ∧
  (isPaused st = false → animationRef (resetVisualization P st) = None).
Proof.
  intros Hr.
  assert (gRef (resetVisualization_handler P st) = Some (drawn_scene P)) as Hh.
  { destruct (X1_elements_are_stable P st Hr) as (g&Hg&Hl&Hc).
    rewrite resetVisualization_handler_gRef, Hg. simpl. f_equal.
    rewrite (neutral_by_ids _ _ Hl), (reset_fill_by_ids P _ _ Hc).
    apply drawn_scene_reset. }
  assert (gRef (resetVisualization P st) = Some (drawn_scene P)) as Hg.
  { unfold resetVisualization. destruct (isPaused st); [|done].
    unfold startAnimation_effect. apply startAnimation_initial_scene.
    - by rewrite clearAnimation_eq.
    - apply drawn_scene_initial. }
  pose proof (resetVisualization_fields P st) as (_&Hs&Hc&Hp&Hi&_).
  split_and!; try done.
  - intros st0 Hm. by rewrite (mount_gRef P st0 Hm).
  - intros Hnp. unfold resetVisualization. rewrite Hnp.
    by pose proof (resetVisualization_handler_fields P st) as (_&_&_&_&_&_&->&_).
Qed.

Lemma X2_reset_restores_drawn_scene_witness :
  ∃ st0, mount scenario_fan = Some st0 ∧
         gRef (resetVisualization scenario_fan (ticks scenario_fan 2 st0))
           = gRef st0.
Proof.
  eexists. split; [vm_compute; reflexivity|].
  match goal with
  | |- gRef (resetVisualization _ ?s) = gRef ?s0 =>
      destruct (X2_reset_restores_drawn_scene scenario_fan s) as (_ & H & _);
        [eexists s0, [Tick; Tick];
         split; [vm_compute; reflexivity | vm_compute; reflexivity]|];
      apply H; vm_compute; reflexivity
  end.
Defined.

(** X3.  The two [resetVisualization]s of the component agree whenever the
    group exists: the call of [setInitialNodeColors] in the one on the handle
    is overwritten by the selections that follow it.  Without a group the
    [useCallback] one returns before doing anything. *)
Theorem X3_reset_versions_agree P st :
  (is_Some (gRef st) →
     resetVisualization_callback P st = resetVisualization_handler P st) ∧
  (gRef st = None → resetVisualization_callback P st = st).
Proof.
  split.
  - intros [g0 Hg].
    pose proof (resetVisualization_handler_fields P st) as (?&?&?&?&?&?&?&_).
    pose proof (resetVisualization_handler_gRef P st) as Hh. rewrite Hg in Hh.
    assert (resetVisualization_callback P st =
              {| gRef := Some {| lines := map (attr_stroke black 1%Z) (lines g0);
                                 circles := map (reset_fill P) (circles g0) |};
                 dimensions := dimensions st; currentStep := None;
                 isComplete := false; isPaused := false; animationRef := None;
                 currentIndexRef := 0; completeCalls := completeCalls st |}) as ->.
    { unfold resetVisualization_callback. rewrite Hg, clearAnimation_eq.
      unfold with_g. simpl. rewrite Hg. done. }
    by apply State_eq.
  - intros Hg. unfold resetVisualization_callback. by rewrite Hg.
Qed.

Lemma X3_reset_versions_agree_witness :
  ∃ st0, mount scenario_chain = Some st0 ∧
    resetVisualization_callback scenario_chain (ticks scenario_chain 1 st0)
    = resetVisualization_handler scenario_chain (ticks scenario_chain 1 st0).
Proof.
  eexists. split; [vm_compute; reflexivity|].
  match goal with
  | |- resetVisualization_callback _ ?s = _ =>
      destruct (X3_reset_versions_agree scenario_chain s) as [H _];
      apply H; vm_compute; by eexists
  end.
Defined.

(** ** Pause and resume *)

Lemma togglePause_gRef_initial P st g :
  gRef st = Some g → Forall (initial_colour P) (circles g) →
  gRef (togglePause P st) = Some g.
Proof.
  intros Hg Hc. unfold togglePause, startAnimation_effect.
  apply startAnimation_initial_scene; [|done].
  rewrite clearAnimation_eq. simpl. unfold togglePause_handler.
  rewrite clearAnimation_eq.
  destruct (isPaused st); [|done]. case_match; [done|].
  by apply startAnimation_initial_scene.
Qed.

Lemma togglePause_gRef_same P st :
  (currentIndexRef st ≠ 0 ∨
   ∃ g, gRef st = Some g ∧ Forall (initial_colour P) (circles g)) →
  gRef (togglePause P st) = gRef st.
Proof.
  intros [Hi|(g&Hg&Hc)].
  - pose proof (togglePause_fields P st) as (_&_&_&_&_&_&_&_&Hk&_). auto.
  - rewrite Hg. by apply togglePause_gRef_initial.
Qed.

Lemma ticks_paused P st k :
  (∀ t, animationRef st = Some t → t_isPaused t = true) →
  run P (replicate k Tick) st = Some st.
Proof.
  intros Hp. induction k as [|k IH]; simpl; [done|].
  assert (tick P st = st) as ->; [|done].
  unfold tick. destruct (animationRef st) as [t|]; [|done].
  by apply animate_paused, Hp.
Qed.

Lemma run_app P es1 es2 st :
  run P (es1 ++ es2) st = run P es1 st ≫= run P es2.
Proof.
  revert st. induction es1 as [|e es1 IH]; intros st; simpl; [done|].
  destruct (step P e st); simpl; [apply IH|done].
Qed.

(** X4.  Pausing a running controller, letting the interval fire any number
    of times, and resuming gives back exactly the state before the pause: no
    step is applied or skipped while paused, and playback continues from the
    retained index.  (At index 0 this needs the circles to be in their initial
    colours, as they are before the first step.) *)
Theorem X4_pause_resume_round_trip P st k :
  reachable P st → isPaused st = false → is_Some (animationRef st) →
  (currentIndexRef st ≠ 0 ∨
   ∃ g, gRef st = Some g ∧ Forall (initial_colour P) (circles g)) →
  tick P (togglePause P st) = togglePause P st ∧
  run P (TogglePause :: replicate k Tick ++ [TogglePause]) st = Some st.
Proof.
  intros Hr Hp [t Ha] Hscene.
  pose proof (reachable_inv P st Hr) as (He&_&Ht&Hg).
  destruct (Ht t Ha) as [Htp Htd].
  assert (paths P ≠ []) as Hne
    by (intros E; destruct (He E) as (?&_); congruence).
  pose proof (togglePause_fields P st) as (Hd1&Hs1&Hc1&Hp1&Hi1&Hn1&_&_&_&Ha1).
  pose proof (togglePause_gRef_same P st Hscene) as Hg1.
  set (st1 := togglePause P st) in *.
  assert (animationRef st1 =
            Some {| t_isPaused := true; t_dimensions := dimensions st |}) as Ha1'.
  { rewrite Ha1, Hp. destruct Hg as [g ->]. by destruct (paths P). }
  assert (tick P st1 = st1) as Htick.
  { unfold tick. rewrite Ha1'. by apply animate_paused. }
  split; [done|].
  simpl. fold st1. rewrite run_app, ticks_paused; simpl.
  2: { intros t'. rewrite Ha1'. by intros [= <-]. }
  f_equal.
  pose proof (togglePause_fields P st1) as (Hd2&Hs2&Hc2&Hp2&Hi2&Hn2&_&_&_&Ha2).
  assert (gRef (togglePause P st1) = gRef st1) as Hg2.
  { apply togglePause_gRef_same. rewrite Hi1, Hg1. done. }
  apply State_eq; try congruence.
  - rewrite Hp2, Hp1, Hp. done.
  - rewrite Ha2, Hg1, Hp1, Hp, Hd1, Ha. destruct Hg as [g ->].
    destruct (paths P); [done|]. simpl. f_equal.
    destruct t. simpl in *. congruence.
Qed.

Lemma X4_pause_resume_round_trip_witness :
  ∃ st0, mount scenario_fan = Some st0 ∧
    run scenario_fan [TogglePause; Tick; Tick; TogglePause]
        (ticks scenario_fan 1 st0) = Some (ticks scenario_fan 1 st0).
Proof.
  eexists. split; [vm_compute; reflexivity|].
  match goal with
  | |- run _ _ ?s = _ =>
      destruct (X4_pause_resume_round_trip scenario_fan s 2) as [_ H];
        [ eexists _, [Tick];
          split; [vm_compute; reflexivity | vm_compute; reflexivity]
        | vm_compute; reflexivity
        | vm_compute; by eexists
        | left; vm_compute; discriminate
        | exact H ]
  end.
Defined.

(** ** Resize *)

Lemma resize_animationRef P d st st' :
  resize P d st = Some st' →
  animationRef st' =
    match paths P with
    | [] => None
    | _ :: _ => Some {| t_isPaused := isPaused st; t_dimensions := d |}
    end.
Proof.
  unfold resize. rewrite clearAnimation_eq. intros H.
  destruct (drawGraph _ _) as [st2|] eqn:Hdraw; simplify_eq/=.
  apply drawGraph_fields in Hdraw as (Hd&_&_&Hp&Ha&_&_&Hg). simpl in *.
  rewrite startAnimation_animationRef, Ha, Hp, Hd.
  destruct Hg as [g ->]; [by eexists|]. by destruct (paths P).
Qed.

Lemma resize_defined P d d' st st' :
  is_Some (resize P d st) → is_Some (resize P d' st').
Proof.
  unfold resize, drawGraph, zoom_effect. simpl.
  destruct (nodes (data P)); simpl; [by eexists|].
  destruct (mapM _ _); simpl; [by eexists|]. by intros [? ?].
Qed.

(** X5.  The result of a resize does not depend on the sizes the component
    went through before: resizing to [d] after any other resize gives the
    state that resizing to [d] directly gives, and resizing twice to the same
    size is resizing once. *)
Theorem X5_resize_forgets_history P d d0 st st1 st2 :
  resize P d st = Some st1 → resize P d0 st = Some st2 →
  resize P d st2 = Some st1 ∧ resize P d st1 = Some st1.
Proof.
  intros H1 H2.
  assert (∀ d' st', resize P d' st = Some st' → resize P d st' = Some st1) as H.
  { intros d' st' H'.
    destruct (resize_defined P d' d st st' (ltac:(by eexists))) as [st3 H3].
    rewrite H3. f_equal.
    pose proof (resize_fields P d st st1 H1) as (?&?&?&?&?&?&_).
    pose proof (resize_fields P d' st st' H') as (?&?&?&?&?&?&_).
    pose proof (resize_fields P d st' st3 H3) as (?&?&?&?&?&?&_).
    apply State_eq; try congruence.
    - by rewrite (resize_gRef _ _ _ _ H1), (resize_gRef _ _ _ _ H3).
    - rewrite (resize_animationRef _ _ _ _ H1), (resize_animationRef _ _ _ _ H3).
      destruct (paths P); congruence. }
  split; eauto.
Qed.

Lemma X5_resize_forgets_history_witness :
  ∃ st0 st1 st2,
    mount scenario_chain = Some st0 ∧
    resize scenario_chain (calculateDimensions 500 1024) st0 = Some st1 ∧
    resize scenario_chain (calculateDimensions 320 480) st0 = Some st2 ∧
    resize scenario_chain (calculateDimensions 500 1024) st2 = Some st1.
Proof.
  eexists _, _, _. split; [vm_compute; reflexivity|].
  split; [vm_compute; reflexivity|]. split; [vm_compute; reflexivity|].
  match goal with
  | |- resize _ ?d ?s2 = Some ?s1 =>
      destruct (X5_resize_forgets_history scenario_chain d
                  (calculateDimensions 320 480)
                  (default init_state (mount scenario_chain)) s1 s2)
        as [H _]; [vm_compute; reflexivity | vm_compute; reflexivity |];
      exact H
  end.
Defined.

(** X21.  What a resize does, in general.  It is defined whenever every link
    names two positions of the node array.  It sets the dimensions and leaves
    the index, the step text, the paused flag, the completion flag and the
    callback count as they were.  The scene it leaves is the freshly drawn
    one: one line per link in the neutral style, one circle per node in its
    initial colour (start, goal, or white), whatever was highlighted before.
    And it leaves an interval armed whenever the path sequence is not empty,
    created with the paused flag and the new dimensions, also when none was
    armed before (a run that had completed, or one that had been reset). *)
Theorem X21_resize_redraws_and_rearms P d st :
  (links_in_range P → is_Some (resize P d st)) ∧
  (∀ st', resize P d st = Some st' →
     dimensions st' = d ∧
     currentIndexRef st' = currentIndexRef st ∧
     currentStep st' = currentStep st ∧
     isPaused st' = isPaused st ∧
     isComplete st' = isComplete st ∧
     completeCalls st' = completeCalls st ∧
     animationRef st' =
       match paths P with
       | [] => None
       | _ :: _ => Some {| t_isPaused := isPaused st; t_dimensions := d |}
       end ∧
     ∃ g', gRef st' = Some g' ∧
       Forall neutral (lines g') ∧ Forall (initial_colour P) (circles g') ∧
       (nodes (data P) ≠ [] →
          Forall2 (λ l e, line_source e = source l ∧ line_target e = target l)
                  (links (data P)) (lines g') ∧
          circles g' = draw_node P <$> nodes (data P))).
Proof.
  split.
  - intros Hwf. unfold resize, drawGraph, zoom_effect. simpl.
    destruct (nodes (data P)) as [|n ns] eqn:Hn; simpl; [by eexists|].
    destruct (mapM_is_Some_2 (draw_link P) (links (data P))) as [ls ->];
      [|by eexists].
    eapply Forall_impl; [exact Hwf|]. intros l [Hs Ht]. simpl.
    unfold draw_link. rewrite Hn in Hs, Ht |- *.
    destruct (lookup_lt_is_Some_2 _ _ Hs) as [? ->].
    destruct (lookup_lt_is_Some_2 _ _ Ht) as [? ->]. by eexists.
  - intros st' H. pose proof (resize_scene P d st st' H) as Hscene.
    pose proof (resize_animationRef P d st st' H) as Ha.
    apply resize_fields in H as (?&?&?&?&?&?&_). by split_and!.
Qed.

Lemma X21_resize_redraws_and_rearms_witness :
  ∃ st0 st',
    mount scenario_single = Some st0 ∧
    animationRef (tick scenario_single st0) = None ∧
    resize scenario_single (calculateDimensions 500 1024)
           (tick scenario_single st0) = Some st' ∧
    isComplete st' = true ∧
    animationRef st' =
      Some {| t_isPaused := false;
              t_dimensions := {| width := 500; height := 389 |} |}.
Proof.
  eexists _, _. split; [vm_compute; reflexivity|].
  split; [vm_compute; reflexivity|].
  split; [vm_compute; reflexivity|].
  match goal with
  | |- isComplete ?s' = _ ∧ _ =>
      destruct (X21_resize_redraws_and_rearms scenario_single
                  (calculateDimensions 500 1024)
                  (tick scenario_single
                        (default init_state (mount scenario_single))))
        as [_ H];
      destruct (H s') as (_ & _ & _ & _ & Hc & _ & Ha & _);
        [vm_compute; reflexivity|];
      rewrite Hc, Ha
  end.
  split; vm_compute; reflexivity.
Defined.

(** X6.  [calculateDimensions], for a container of non-negative width: the
    drawing is never wider than the container nor than the layout space (900,
    or 500 on a narrow window, where it is square and the active stroke is
    5); on a wide window the height is the width times 7/9 rounded to the
    nearest integer, and a container of at least 900 gives the layout space
    900 x 700 itself. *)
Theorem X6_calculateDimensions_bounds (containerWidth innerWidth : Z) :
  (0 ≤ containerWidth)%Z →
  let d := calculateDimensions containerWidth innerWidth in
  (0 ≤ width d ≤ containerWidth)%Z ∧ (width d ≤ 900)%Z ∧
  ((innerWidth ≤ 768)%Z →
     height d = width d ∧ (width d ≤ 500)%Z ∧ active_width d = 5%Z) ∧
  ((768 < innerWidth)%Z →
     (-9 ≤ 18 * height d - 14 * width d < 9)%Z ∧
     ((900 ≤ containerWidth)%Z → d = {| width := 900; height := 700 |})).
Proof.
  intros Hc. unfold calculateDimensions, active_width.
  destruct (Z.leb_spec innerWidth 768) as [Hm|Hm]; simpl.
  - destruct (Z.leb_spec (500 `min` containerWidth) 500); [|lia].
    repeat split; intros; lia.
  - pose proof (Z.div_mod (14 * (900 `min` containerWidth) + 9) 18
                  ltac:(lia)) as Hdm.
    pose proof (Z.mod_pos_bound (14 * (900 `min` containerWidth) + 9) 18
                  ltac:(lia)) as Hmb.
    repeat split; intros; try lia.
    rewrite Z.min_l by lia. done.
Qed.

Lemma X6_calculateDimensions_bounds_witness :
  height (calculateDimensions 500 1024) = 389%Z ∧
  calculateDimensions 1280 1440 = {| width := 900; height := 700 |}.
Proof.
  destruct (X6_calculateDimensions_bounds 500 1024 ltac:(lia))
    as (_&_&_&H1).
  destruct (X6_calculateDimensions_bounds 1280 1440 ltac:(lia))
    as (_&_&_&H2).
  split.
  - reflexivity.
  - apply H2; lia.
Defined.

(** ** The colours after n firings *)

Lemma circle_fill_select_other i j c cs :
  i ≠ j → circle_fill j (select_circle i (attr_fill c) cs) = circle_fill j cs.
Proof.
  intros Hne. induction cs as [|e cs IH]; simpl; [done|].
  case_decide as Hk; simpl.
  - subst i. by rewrite !decide_False.
  - case_decide; [done|]. apply IH.
Qed.

Lemma recolour_twice (o : option Color) :
  (λ _, red) <$> ((λ _, red) <$> o) = (λ _, red) <$> o.
Proof. by destruct o. Qed.

(** What one unpaused firing does to the fill read at a circle id. *)
Lemma tick_fill_of P st t i :
  animationRef st = Some t → t_isPaused t = false →
  fill_of i (tick P st) =
    match paths P !! currentIndexRef st with
    | Some p => if targets P i p then (λ _, red) <$> fill_of i st
                else fill_of i st
    | None => fill_of i st
    end.
Proof.
  intros Ha Hp. unfold fill_of, tick, targets. rewrite Ha, animate_gRef by done.
  destruct (paths P !! currentIndexRef st) as [[src tgt]|] eqn:Hi; simpl.
  - destruct (find_node P src) as [sN|] eqn:Hs;
      [destruct (find_node P tgt) as [tN|] eqn:Ht|].
    + destruct (gRef st) as [g|] eqn:Hg.
      * destruct (apply_step_resolved P t st g src tgt sN tN Hg Hi Hs Ht)
          as [-> _]. simpl.
        case_bool_decide as Hk.
        -- subst i. apply circle_fill_select_same.
        -- by apply circle_fill_select_other.
      * assert (gRef (apply_step P t st) = None) as ->; [|by case_bool_decide].
        unfold apply_step. rewrite Hi, Hs, Ht. simpl.
        by rewrite !with_g_gRef, Hg.
    + rewrite apply_step_unresolved; [done|].
      intros ?? Hx. rewrite Hi in Hx. simplify_eq. by right.
    + rewrite apply_step_unresolved; [done|].
      intros ?? Hx. rewrite Hi in Hx. simplify_eq. by left.
  - rewrite apply_step_unresolved; [done|]. intros ?? Hx. by rewrite Hi in Hx.
Qed.

(** What one unpaused firing does to the stroke read at a line id, under
    ["bfs"]. *)
Lemma tick_stroke_of_bfs P st t s d :
  algorithm P = "bfs" →
  animationRef st = Some t → t_isPaused t = false →
  stroke_of s d (tick P st) =
    match paths P !! currentIndexRef st with
    | Some p => if walks P s d p then (λ _, red) <$> stroke_of s d st
                else stroke_of s d st
    | None => stroke_of s d st
    end.
Proof.
  intros Halg Ha Hp. unfold stroke_of, tick, walks.
  rewrite Ha, animate_gRef by done.
  destruct (paths P !! currentIndexRef st) as [[src tgt]|] eqn:Hi; simpl.
  - destruct (find_node P src) as [sN|] eqn:Hs;
      [destruct (find_node P tgt) as [tN|] eqn:Ht|].
    + destruct (gRef st) as [g|] eqn:Hg.
      * destruct (apply_step_resolved P t st g src tgt sN tN Hg Hi Hs Ht)
          as [-> _]. simpl.
        rewrite dehighlight_prev_key, prev_key_bfs by done.
        case_bool_decide as Hk.
        -- destruct Hk as [<- <-]. apply line_stroke_select_same.
        -- by apply line_stroke_select_other.
      * assert (gRef (apply_step P t st) = None) as ->; [|by case_bool_decide].
        unfold apply_step. rewrite Hi, Hs, Ht. simpl.
        by rewrite !with_g_gRef, Hg.
    + rewrite apply_step_unresolved; [done|].
      intros ?? Hx. rewrite Hi in Hx. simplify_eq. by right.
    + rewrite apply_step_unresolved; [done|].
      intros ?? Hx. rewrite Hi in Hx. simplify_eq. by left.
  - rewrite apply_step_unresolved; [done|]. intros ?? Hx. by rewrite Hi in Hx.
Qed.

(** The shape of the induction over the firings of a run: a reading of the
    state that each firing either leaves alone or sends through [f]
    (idempotent), according to the step it applies. *)
Lemma reading_after_ticks {A} P (read : State → A) (f : A → A)
    (hit : string * string → bool) st0 :
  run_start P st0 →
  (∀ a, f (f a) = f a) →
  (∀ st t, animationRef st = Some t → t_isPaused t = false →
     read (tick P st) =
       match paths P !! currentIndexRef st with
       | Some p => if hit p then f (read st) else read st
       | None => read st
       end) →
  ∀ n, read (ticks P n st0) =
         if existsb hit (take n (paths P)) then f (read st0) else read st0.
Proof.
  intros Hs Hf Htick n. pose proof Hs as (Hne&_&_&_&_&t&Ha&Hp).
  induction n as [|n IH]; [by rewrite take_0|].
  change (ticks P (S n) st0) with (tick P (ticks P n st0)).
  destruct (ticks_from_start P st0 n Hs) as (Hi&_&_&Han).
  destruct (Nat.leb_spec (length (paths P)) n) as [Hle|Hlt].
  - unfold tick. rewrite Han, IH. by rewrite !take_ge by lia.
  - rewrite Ha in Han. rewrite (Htick _ t Han Hp), Hi, IH.
    replace (n `min` (length (paths P) - 1)) with n by lia.
    destruct (lookup_lt_is_Some_2 _ _ Hlt) as [p Hp'].
    rewrite Hp', (take_S_r _ _ _ Hp'), existsb_app. simpl.
    rewrite orb_false_r.
    destruct (existsb hit (take n (paths P))), (hit p); simpl; by rewrite ?Hf.
Qed.

(** X7.  After n firings from the start of a run, the circle with id i is
    filled red when one of the first n steps resolves and has the node with
    index i as its target, and has the colour it had at the start otherwise:
    the node colours are a function of the steps applied, whatever the
    algorithm. *)
Theorem X7_fill_after_ticks P st0 n i :
  run_start P st0 →
  fill_of i (ticks P n st0) =
    if existsb (targets P i) (take n (paths P))
    then (λ _, red) <$> fill_of i st0
    else fill_of i st0.
Proof.
  intros Hs.
  apply (reading_after_ticks P (fill_of i) (fmap (λ _, red)) (targets P i));
    [done | apply recolour_twice |].
  intros st t. apply tick_fill_of.
Qed.

Lemma X7_fill_after_ticks_witness :
  ∃ st0, mount scenario_fan = Some st0 ∧
         fill_of 2 (ticks scenario_fan 1 st0) = Some white ∧
         fill_of 2 (ticks scenario_fan 2 st0) = Some red.
Proof.
  eexists. split; [vm_compute; reflexivity|].
  match goal with
  | |- fill_of _ (ticks _ _ ?s) = _ ∧ _ =>
      assert (run_start scenario_fan s) as Hs
        by (apply mount_run_start; [vm_compute; reflexivity | discriminate]);
      pose proof (X7_fill_after_ticks scenario_fan s 1 2 Hs) as H1;
      pose proof (X7_fill_after_ticks scenario_fan s 2 2 Hs) as H2
  end.
  split; [rewrite H1 | rewrite H2]; vm_compute; reflexivity.
Defined.

(** X8.  Under ["bfs"], after n firings from the start of a run the line with
    id line-s-d is active when one of the first n steps resolves to the pair
    (s, d), and has the stroke it had at the start otherwise: breadth-first
    playback accumulates the walked edges. *)
Theorem X8_bfs_stroke_after_ticks P st0 n s d :
  algorithm P = "bfs" → run_start P st0 →
  stroke_of s d (ticks P n st0) =
    if existsb (walks P s d) (take n (paths P))
    then (λ _, red) <$> stroke_of s d st0
    else stroke_of s d st0.
Proof.
  intros Halg Hs.
  apply (reading_after_ticks P (stroke_of s d) (fmap (λ _, red)) (walks P s d));
    [done | apply recolour_twice |].
  intros st t. by apply tick_stroke_of_bfs.
Qed.

Lemma X8_bfs_stroke_after_ticks_witness :
  ∃ st0, mount scenario_bfs = Some st0 ∧
         stroke_of 0 1 (ticks scenario_bfs 3 st0) = Some red ∧
         stroke_of 0 3 (ticks scenario_bfs 2 st0) = Some black.
Proof.
  eexists. split; [vm_compute; reflexivity|].
  match goal with
  | |- stroke_of _ _ (ticks _ _ ?s) = _ ∧ _ =>
      assert (run_start scenario_bfs s) as Hs
        by (apply mount_run_start; [vm_compute; reflexivity | discriminate]);
      pose proof (X8_bfs_stroke_after_ticks scenario_bfs s 3 0 1 eq_refl Hs) as H1;
      pose proof (X8_bfs_stroke_after_ticks scenario_bfs s 2 0 3 eq_refl Hs) as H2
  end.
  split; [rewrite H1 | rewrite H2]; vm_compute; reflexivity.
Defined.

(** ** What is shown under the drawing *)

Lemma tick_shows_step P st t :
  animationRef st = Some t → t_isPaused t = false →
  bool_decide (is_Some (shows_step (tick P st))) =
    match paths P !! currentIndexRef st with
    | Some p => if resolves P p then true
                else bool_decide (is_Some (shows_step st))
    | None => bool_decide (is_Some (shows_step st))
    end.
Proof.
  intros Ha Hp. unfold shows_step, tick, resolves.
  rewrite Ha, animate_currentStep by done.
  destruct (paths P !! currentIndexRef st) as [[src tgt]|] eqn:Hi; simpl.
  - destruct (find_node P src) as [sN|] eqn:Hs;
      [destruct (find_node P tgt) as [tN|] eqn:Ht|].
    + unfold apply_step. rewrite Hi, Hs, Ht. done.
    + rewrite apply_step_unresolved; [done|].
      intros ?? Hx. rewrite Hi in Hx. simplify_eq. by right.
    + rewrite apply_step_unresolved; [done|].
      intros ?? Hx. rewrite Hi in Hx. simplify_eq. by left.
  - rewrite apply_step_unresolved; [done|]. intros ?? Hx. by rewrite Hi in Hx.
Qed.

(** X9.  From the start of a run with no step text, "Goal reached!" is shown
    after n firings exactly when the run has completed (n is at least the
    number of steps) and at least one step of the sequence resolves; the goal
    label plays no part in it. *)
Theorem X9_goal_reached_shown P st0 n :
  run_start P st0 → currentStep st0 = None →
  shows_goal_reached (ticks P n st0) =
    (length (paths P) <=? n) && existsb (resolves P) (paths P).
Proof.
  intros Hs H0. unfold shows_goal_reached.
  rewrite (reading_after_ticks P (λ st, bool_decide (is_Some (shows_step st)))
             (λ _, true) (resolves P) st0 Hs ltac:(done)
             (tick_shows_step P) n).
  destruct (ticks_from_start P st0 n Hs) as (_&->&_).
  assert (bool_decide (is_Some (shows_step st0)) = false) as ->.
  { unfold shows_step. rewrite H0. apply bool_decide_eq_false. by intros [? ?]. }
  destruct (Nat.leb_spec (length (paths P)) n) as [Hle|Hlt].
  - rewrite take_ge by lia. by destruct (existsb _ _).
  - by destruct (existsb _ _).
Qed.

Lemma X9_goal_reached_shown_witness :
  ∃ st0, mount scenario_missing = Some st0 ∧
         isComplete (ticks scenario_missing 1 st0) = true ∧
         shows_goal_reached (ticks scenario_missing 1 st0) = false.
Proof.
  eexists. split; [vm_compute; reflexivity|].
  split; [vm_compute; reflexivity|].
  match goal with
  | |- shows_goal_reached (ticks _ _ ?s) = _ =>
      rewrite (X9_goal_reached_shown scenario_missing s 1);
        [ vm_compute; reflexivity
        | apply mount_run_start; [vm_compute; reflexivity | discriminate]
        | vm_compute; reflexivity ]
  end.
Defined.

(** ** The labels of the table of iteration counts *)

Lemma toUpperCase_facts c :
  toUpperCase (toUpperCase c) = toUpperCase c ∧
  (c ≠ "_"%char → toUpperCase c ≠ "_"%char) ∧
  toUpperCase " " = " "%char.
Proof.
  destruct c as [[] [] [] [] [] [] [] []]; vm_compute; split_and!; done.
Qed.

Lemma concat_cons_String sep c w ws :
  String.concat sep (String c w :: ws) = String c (String.concat sep (w :: ws)).
Proof. by destruct ws. Qed.

Lemma split_underscore_scan s :
  ∃ w ws, split_underscore s = w :: ws ∧
    String.concat " " (capitalize <$> (w :: ws)) = format_scan true s ∧
    String.concat " " (w :: (capitalize <$> ws)) = format_scan false s.
Proof.
  induction s as [|c r (w&ws&Hsplit&IH1&IH2)].
  - by exists EmptyString, [].
  - cbn [split_underscore format_scan]. rewrite Hsplit.
    case_decide as Hc.
    + exists EmptyString, (w :: ws). split; [done|].
      rewrite <- IH1. done.
    + exists (String c w), ws. split; [done|].
      rewrite fmap_cons. change (capitalize (String c w))
        with (String (toUpperCase c) w).
      rewrite !concat_cons_String, IH2. done.
Qed.

Lemma formatParam_scan s : formatParam s = format_scan true s.
Proof.
  unfold formatParam. destruct (split_underscore_scan s) as (w&ws&->&H&_). done.
Qed.

Lemma format_scan_length b s :
  String.length (format_scan b s) = String.length s.
Proof.
  revert b. induction s as [|c r IH]; intros b; simpl; [done|].
  case_decide; simpl; by rewrite IH.
Qed.

Lemma format_scan_no_underscore b s :
  Forall (λ c, c ≠ "_"%char) (list_ascii_of_string (format_scan b s)).
Proof.
  revert b. induction s as [|c r IH]; intros b; simpl; [done|].
  case_decide as Hc; simpl; constructor; try apply IH; [done|].
  destruct b; [|done]. by apply toUpperCase_facts.
Qed.

Lemma format_scan_false_id s :
  Forall (λ c, c ≠ "_"%char) (list_ascii_of_string s) → format_scan false s = s.
Proof.
  induction s as [|c r IH]; simpl; [done|]. intros [Hc Hr]%Forall_cons.
  rewrite decide_False by done. by rewrite IH.
Qed.

Lemma format_scan_idem s :
  format_scan true (format_scan true s) = format_scan true s.
Proof.
  pose proof (format_scan_no_underscore) as Hno.
  destruct s as [|c r]; simpl; [done|].
  case_decide as Hc; simpl.
  - f_equal; try (by apply toUpperCase_facts).
    apply format_scan_false_id, Hno.
  - rewrite decide_False by by apply toUpperCase_facts.
    f_equal; try (by apply toUpperCase_facts).
    apply format_scan_false_id, Hno.
Qed.

(** X10.  On an ASCII parameter name the label printed in the table is the
    name read in one pass: every underscore replaced by a space, the first
    character of every word upper-cased, every other character kept.  So the
    label has the length of the name, contains no underscore, and formatting
    a label again leaves it as it is. *)
Theorem X10_formatParam_label param :
  ascii_only param →
  formatParam param = format_scan true param ∧
  String.length (formatParam param) = String.length param ∧
  Forall (λ c, c ≠ "_"%char) (list_ascii_of_string (formatParam param)) ∧
  formatParam (formatParam param) = formatParam param.
Proof.
  intros _. rewrite !formatParam_scan. split_and!.
  - done.
  - apply format_scan_length.
  - apply format_scan_no_underscore.
  - apply format_scan_idem.
Qed.

Lemma X10_formatParam_label_witness :
  formatParam "queue_size" = "Queue Size" ∧
  formatParam (formatParam "path_cost") = formatParam "path_cost".
Proof.
  assert (ascii_only "path_cost") as Ha
    by (unfold ascii_only; vm_compute; repeat constructor).
  destruct (X10_formatParam_label "path_cost" Ha) as (_&_&_&H).
  split; [vm_compute; reflexivity | exact H].
Defined.

(** * The hosting view *)

Lemma tick_isPaused P st : isPaused (tick P st) = isPaused st.
Proof.
  unfold tick. destruct (animationRef st) as [t|]; [|done].
  destruct (t_isPaused t) eqn:Hp; [by rewrite animate_paused|].
  by pose proof (animate_fields P t st Hp) as (->&_).
Qed.

Lemma tick_is_Some_gRef P st : is_Some (gRef st) → is_Some (gRef (tick P st)).
Proof.
  unfold tick. destruct (animationRef st) as [t|]; [|done].
  apply animate_is_Some_gRef.
Qed.

(** A firing that leaves the run complete either found it complete or
    invoked the callback. *)
Lemma tick_completes P st :
  onAnimationComplete P = true → isComplete (tick P st) = true →
  isComplete st = true ∨ completeCalls (tick P st) = S (completeCalls st).
Proof.
  intros Hcb. unfold tick. destruct (animationRef st) as [t|]; [|by left].
  destruct (t_isPaused t) eqn:Hp; [rewrite animate_paused by done; by left|].
  pose proof (animate_fields P t st Hp) as (_&_&Hadv&Hcpl).
  destruct (decide (S (currentIndexRef st) < length (paths P))) as [H|H].
  - destruct (Hadv H) as (_&_&->&_). by left.
  - destruct Hcpl as (_&_&_&->); [lia|]. rewrite Hcb. by right.
Qed.

Lemma render_paths_inv h : app_inv h → app_inv (render_paths h).
Proof.
  intros (Hp&Hc&Hg). unfold render_paths, app_inv. simpl.
  pose proof (startAnimation_effect_fields (graph_props h) (graph h))
    as (_&_&->&->&_&_&_&Hg'&_). auto.
Qed.

Lemma render_host_inv h : app_inv h → app_inv (render_host h).
Proof.
  intros Hi. unfold render_host. destruct (searchResult h); [done|].
  by apply render_paths_inv.
Qed.

Lemma render_labels_inv h h' :
  app_inv h → render_labels h = Some h' → app_inv h'.
Proof.
  intros (Hp&Hc&Hg). unfold render_labels. rewrite clearAnimation_eq.
  destruct (drawGraph _ _) as [st|] eqn:Hd; simpl; [|done]. intros [= <-].
  apply drawGraph_fields in Hd as (_&_&Hc'&Hp'&_&_&_&Hg'). simpl in *.
  pose proof (startAnimation_other (graph_props h) (isPaused st) (dimensions st) st)
    as (_&_&Hc2&Hp2&_).
  unfold app_inv. simpl. rewrite Hc2, Hp2, Hc', Hp'.
  split_and!; try done. by apply startAnimation_is_Some_gRef, Hg'.
Qed.

Lemma resetSearch_inv h :
  app_inv h →
  app_inv (resetSearch h) ∧ isComplete (graph (resetSearch h)) = false.
Proof.
  intros (Hp&Hc&Hg). unfold resetSearch, app_inv. simpl.
  pose proof (resetVisualization_handler_fields (graph_props h) (graph h))
    as (_&_&->&->&_&_&_&Hg'). auto.
Qed.

Lemma app_step_inv e h h' : app_inv h → app_step e h = Some h' → app_inv h'.
Proof.
  intros Hi. pose proof Hi as (Hp&Hc&Hg).
  destruct e; simpl; intros Hs; simplify_eq.
  - (* RunSearchClick *)
    unfold handleSearch. case_match; [done|].
    apply render_paths_inv. destruct (resetSearch_inv h Hi) as [(?&?&?) Hnc].
    unfold app_inv. simpl in *.
    split_and!; [done | intros Hx; congruence | done].
  - (* SearchResolved *)
    unfold searchResolved. destruct (pending h); [done|].
    by apply render_paths_inv.
  - (* SearchRejected *)
    unfold searchRejected. destruct (pending h); [done|].
    by apply render_host_inv.
  - (* PauseClick *)
    unfold handlePauseToggle. destruct (isSearching h) eqn:Hs; [|done].
    pose proof (togglePause_fields (graph_props h) (graph h))
      as (_&_&Hc'&Hp'&_&_&_&Hg'&_).
    unfold app_inv. simpl. rewrite Hc', Hp', Hp.
    split_and!; auto; intros Hx; specialize (Hc Hx); congruence.
  - (* AlgorithmSelect *)
    unfold selectAlgorithm. apply render_paths_inv.
    by destruct (resetSearch_inv h Hi) as [(?&?&?) _].
  - (* SpeedSlide *)
    unfold slideSpeed. by apply render_paths_inv.
  - (* StartInput *)
    unfold inputStartNode in Hs. by eapply render_labels_inv; [|exact Hs].
  - (* GoalInput *)
    unfold inputGoalNode in Hs. by eapply render_labels_inv; [|exact Hs].
  - (* IntervalFires *)
    unfold intervalFires.
    assert (app_isPaused h = isPaused (tick (graph_props h) (graph h))) as Hp'
      by by rewrite tick_isPaused.
    pose proof (tick_is_Some_gRef (graph_props h) (graph h) Hg) as Hg'.
    destruct (Nat.eqb_spec (completeCalls (tick (graph_props h) (graph h)))
                           (completeCalls (graph h))) as [Heq|Hne].
    + unfold app_inv. simpl. split_and!; try done. intros Hx.
      destruct (tick_completes (graph_props h) (graph h) eq_refl Hx); [auto|lia].
    + apply render_host_inv. unfold app_inv. by simpl.
  - (* WindowResize *)
    unfold windowResize in Hs.
    destruct (resize _ _ _) as [g|] eqn:Hr; simplify_eq/=.
    apply resize_fields in Hr as (_&_&Hc'&Hp'&_&_&Hg'&_).
    unfold app_inv. simpl. rewrite Hc', Hp'. auto.
Qed.

Lemma app_run_inv es : ∀ h h', app_inv h → app_run es h = Some h' → app_inv h'.
Proof.
  induction es as [|e es IH]; simpl; intros h h' Hi Hr; [by simplify_eq|].
  destruct (app_step e h) as [h1|] eqn:Hs; simplify_eq/=.
  eauto using app_step_inv.
Qed.

Lemma app_mounted_inv h : app_mounted h → app_inv h.
Proof.
  intros (Hm&_&Hp&Hs&_).
  apply mount_fields in Hm as (_&_&Hc&Hp'&_&_&Hg&_).
  unfold app_inv. rewrite Hp, Hp', Hc. auto.
Qed.

(** X11.  Whatever the user does, the paused flag of the host (the icon of
    the pause button) is the paused flag of the component, and whenever the
    component shows a completed run the host is not searching: Run Search and
    the graph buttons are enabled, the pause button is disabled. *)
Theorem X11_host_flags_follow_component h :
  app_reachable h →
  app_isPaused h = isPaused (graph h) ∧
  (isComplete (graph h) = true → isSearching h = false).
Proof.
  intros (h0&es&Hm&Hr).
  destruct (app_run_inv es h0 h (app_mounted_inv h0 Hm) Hr) as (?&?&_). done.
Qed.

Lemma app_scenario_mounted : app_mounted app_scenario.
Proof. split; [vm_compute; reflexivity | by split_and!]. Defined.

Lemma X11_host_flags_follow_component_witness :
  ∃ h, app_run [RunSearchClick; SearchResolved [("A", "B"); ("A", "D")];
                IntervalFires; PauseClick; IntervalFires; PauseClick;
                IntervalFires] app_scenario = Some h ∧
       app_isPaused h = isPaused (graph h) ∧
       isComplete (graph h) = true ∧ isSearching h = false.
Proof.
  eexists. split; [vm_compute; reflexivity|].
  match goal with
  | |- app_isPaused ?h = _ ∧ _ =>
      destruct (X11_host_flags_follow_component h) as [Hp Hc];
        [ exists app_scenario,
            [RunSearchClick; SearchResolved [("A", "B"); ("A", "D")];
             IntervalFires; PauseClick; IntervalFires; PauseClick;
             IntervalFires];
          split; [exact app_scenario_mounted | vm_compute; reflexivity] |];
      split; [exact Hp|]; split; [vm_compute; reflexivity|];
      apply Hc; vm_compute; reflexivity
  end.
Defined.

(** ** A search from click to completion *)

(** [ticks_from_start] without the condition on the count of invocations. *)
Lemma ticks_from_armed P st0 t n :
  paths P ≠ [] → currentIndexRef st0 = 0 → isComplete st0 = false →
  animationRef st0 = Some t → t_isPaused t = false →
  currentIndexRef (ticks P n st0) = Nat.min n (length (paths P) - 1) ∧
  isComplete (ticks P n st0) = (length (paths P) <=? n) ∧
  completeCalls (ticks P n st0) =
    completeCalls st0 +
    (if (length (paths P) <=? n) && onAnimationComplete P then 1 else 0) ∧
  animationRef (ticks P n st0) =
    if length (paths P) <=? n then None else Some t.
Proof.
  intros Hne Hi Hc Ha Hp.
  assert (0 < length (paths P)) as Hlen by (destruct (paths P); [done|simpl; lia]).
  induction n as [|n (IHi&IHc&IHn&IHa)].
  - simpl. rewrite Hi, Hc, Ha.
    destruct (Nat.leb_spec (length (paths P)) 0); [lia|].
    split_and!; first [done | simpl; lia].
  - change (ticks P (S n) st0) with (tick P (ticks P n st0)).
    unfold tick. rewrite IHa.
    destruct (Nat.leb_spec (length (paths P)) n) as [Hle|Hlt].
    + rewrite IHi, IHc, IHn, IHa.
      destruct (Nat.leb_spec (length (paths P)) n); [|lia].
      destruct (Nat.leb_spec (length (paths P)) (S n)); [|lia].
      split_and!; first [done | lia].
    + pose proof (animate_fields P t (ticks P n st0) Hp) as (_&_&Hadv&Hcpl).
      rewrite IHi, IHc, IHn, IHa in *.
      destruct (Nat.leb_spec (length (paths P)) (S n)) as [Hle'|Hlt'].
      * destruct Hcpl as (->&->&->&->); [lia|].
        split_and!;
          first [done | lia | simpl; destruct (onAnimationComplete P); lia].
      * destruct Hadv as (->&->&->&->); [lia|].
        split_and!; first [done | lia].
Qed.

Lemma app_run_app es1 es2 h :
  app_run (es1 ++ es2) h = app_run es1 h ≫= app_run es2.
Proof.
  revert h. induction es1 as [|e es1 IH]; intros h; simpl; [done|].
  destruct (app_step e h); simpl; [apply IH|done].
Qed.

(** The host while the interval of a started run fires: the component
    steps, and the host stops searching at the firing that completes. *)
Lemma app_ticks h t k :
  searchResult h ≠ None → paths (graph_props h) ≠ [] → isSearching h = true →
  currentIndexRef (graph h) = 0 → isComplete (graph h) = false →
  animationRef (graph h) = Some t → t_isPaused t = false →
  app_run (replicate k IntervalFires) h =
    Some (setIsSearching (k <? length (paths (graph_props h)))
            (set_graph (ticks (graph_props h) k (graph h)) h)).
Proof.
  intros Hr Hne Hs Hi Hc Ha Hp.
  induction k as [|k IH].
  - assert ((0 <? length (paths (graph_props h))) = true) as Hpos
      by (apply Nat.ltb_lt; destruct (paths (graph_props h)); [done|simpl; lia]).
    cbn [replicate app_run]. rewrite Hpos. f_equal.
    destruct h; simpl in *. by subst.
  - rewrite replicate_S_end, app_run_app, IH.
    set (P := graph_props h) in *.
    destruct (ticks_from_armed P (graph h) t k Hne Hi Hc Ha Hp) as (_&_&Hn&_).
    destruct (ticks_from_armed P (graph h) t (S k) Hne Hi Hc Ha Hp) as (_&_&Hn'&_).
    change (onAnimationComplete P) with true in Hn, Hn'.
    rewrite !andb_true_r in Hn, Hn'.
    change (ticks P (S k) (graph h)) with (tick P (ticks P k (graph h))) in Hn'.
    set (g := ticks P k (graph h)) in *.
    set (b := k <? length (paths P)).
    assert (app_run [IntervalFires] (setIsSearching b (set_graph g h)) =
              Some (if completeCalls (tick P g) =? completeCalls g
                    then set_graph (tick P g) (setIsSearching b (set_graph g h))
                    else render_host (handleAnimationComplete
                           (set_graph (tick P g)
                              (setIsSearching b (set_graph g h)))))) as Hstep
      by done.
    cbn [mbind option_bind]. rewrite Hstep. f_equal.
    rewrite Hn, Hn'. subst b.
    destruct (Nat.leb_spec (length (paths P)) k) as [H1|H1];
      destruct (Nat.leb_spec (length (paths P)) (S k)) as [H2|H2]; try lia.
    + rewrite Nat.eqb_refl.
      replace (k <? length (paths P)) with false
        by (symmetry; apply Nat.ltb_ge; lia).
      replace (S k <? length (paths P)) with false
        by (symmetry; apply Nat.ltb_ge; lia).
      done.
    + replace (completeCalls (graph h) + 1 =? completeCalls (graph h) + 0)
        with false by (symmetry; apply Nat.eqb_neq; lia).
      replace (S k <? length (paths P)) with false
        by (symmetry; apply Nat.ltb_ge; lia).
      unfold render_host, handleAnimationComplete. cbn.
      by destruct (searchResult h).
    + rewrite Nat.eqb_refl.
      replace (k <? length (paths P)) with true
        by (symmetry; apply Nat.ltb_lt; lia).
      replace (S k <? length (paths P)) with true
        by (symmetry; apply Nat.ltb_lt; lia).
      done.
Qed.

(** X12.  A search from the click to its end.  With the search button
    enabled, clicking it, receiving a non-empty path sequence and letting the
    interval fire n times leaves the host searching exactly while n is less
    than the number of steps: the controls come back with the firing that
    applies the last step, when the component is complete with its index on
    the last step. *)
Theorem X12_search_run_completes h r n :
  is_Some (gRef (graph h)) →
  isSearching h = false → app_startNode h ≠ "" → app_goalNode h ≠ "" →
  r ≠ [] →
  ∃ h', app_run (RunSearchClick :: SearchResolved r ::
                 replicate n IntervalFires) h = Some h' ∧
        searchResult h' = Some r ∧
        isSearching h' = (n <? length r) ∧
        isComplete (graph h') = (length r <=? n) ∧
        currentIndexRef (graph h') = Nat.min n (length r - 1).
Proof.
  intros Hg Hs Hsn Hgn Hr.
  set (h1 := handleSearch h).
  set (h2 := searchResolved r h1).
  assert (h1 = render_paths (set_pending (S (pending h))
                               (setIsSearching true (resetSearch h)))) as Hh1.
  { unfold h1, handleSearch. rewrite Hs.
    by rewrite !bool_decide_false by done. }
  pose proof (resetVisualization_handler_fields (graph_props h) (graph h))
    as (_&_&Hc0&Hp0&Hi0&_&Ha0&Hg0).
  set (g0 := resetVisualization_handler (graph_props h) (graph h)) in *.
  assert (graph h1 = startAnimation_effect (graph_props h1) g0) as Hg1
    by by rewrite Hh1.
  pose proof (startAnimation_effect_fields (graph_props h1) g0)
    as (_&_&Hc1&Hp1&Hi1&_&_&Hg1'&_&_).
  rewrite <- Hg1 in Hc1, Hp1, Hi1, Hg1'.
  assert (pending h1 = S (pending h)) as Hpend by by rewrite Hh1.
  assert (isSearching h1 = true) as Hs1 by by rewrite Hh1.
  assert (h2 = render_paths
            {| graphData := graphData h1; searchResult := Some r;
               speed := speed h1; app_algorithm := app_algorithm h1;
               app_startNode := app_startNode h1; app_goalNode := app_goalNode h1;
               app_isPaused := app_isPaused h1; isSearching := isSearching h1;
               pending := pending h; graph := graph h1 |}) as Hh2.
  { unfold h2, searchResolved. by rewrite Hpend. }
  assert (paths (graph_props h2) = r) as Hp2 by by rewrite Hh2.
  assert (graph h2 = startAnimation_effect (graph_props h2) (graph h1)) as Hg2
    by by rewrite Hh2.
  pose proof (startAnimation_effect_fields (graph_props h2) (graph h1))
    as (Hd2&_&Hc2&Hpa2&Hi2&_&_&_&_&Ha2).
  rewrite <- Hg2 in Hd2, Hc2, Hpa2, Hi2, Ha2.
  destruct (Hg1' (Hg0 Hg)) as [g1 Hg1s]. rewrite Hg1s, Hp2 in Ha2.
  destruct r as [|p r']; [done|].
  eexists. split.
  - change (app_run (RunSearchClick :: SearchResolved (p :: r') :: ?es) h)
      with (app_run (replicate n IntervalFires) h2).
    eapply (app_ticks h2 _ n); try done.
    + by rewrite Hh2.
    + by rewrite Hp2.
    + by rewrite Hh2, <- Hs1.
    + congruence.
    + congruence.
    + simpl. congruence.
  - rewrite Hp2. simpl.
    destruct (ticks_from_armed (graph_props h2) (graph h2) _ n
                ltac:(by rewrite Hp2) ltac:(congruence) ltac:(congruence)
                Ha2 ltac:(simpl; congruence)) as (Hi&Hc&_).
    rewrite Hp2 in Hi, Hc. split_and!; try done. by rewrite Hh2.
Qed.

Lemma X12_search_run_completes_witness :
  ∃ h', app_run (RunSearchClick :: SearchResolved [("A", "B"); ("A", "D")] ::
                 replicate 2 IntervalFires) app_scenario = Some h' ∧
        isSearching h' = false ∧ isComplete (graph h') = true.
Proof.
  destruct (X12_search_run_completes app_scenario [("A", "B"); ("A", "D")] 2)
    as (h' & Hrun & _ & Hs & Hc & _);
    [by eexists | reflexivity | discriminate | discriminate | discriminate |].
  exists h'. split; [exact Hrun|]. split; [exact Hs | exact Hc].
Defined.

(** ** A search that returns no step *)

(** What holds after a search has resolved with an empty sequence: the host
    is searching, the component has the empty sequence and no interval. *)
Lemma empty_result_step e h h' :
  keeps_search e = true →
  isSearching h = true → searchResult h = Some [] →
  animationRef (graph h) = None →
  app_step e h = Some h' →
  isSearching h' = true ∧ searchResult h' = Some [] ∧
  animationRef (graph h') = None ∧
  completeCalls (graph h') = completeCalls (graph h).
Proof.
  intros He Hs Hr Ha.
  assert (∀ h0, searchResult h0 = Some [] → paths (graph_props h0) = []) as Hpaths
    by (intros h0 H0; unfold graph_props; simpl; by rewrite H0).
  destruct e; simpl in *; try done; intros Hstep; simplify_eq.
  - unfold handleSearch. rewrite Hs. simpl. by split_and!.
  - unfold handlePauseToggle. rewrite Hs. simpl.
    rewrite togglePause_empty by (simpl; by rewrite Hr).
    rewrite clearAnimation_eq.
    by split_and!.
  - unfold slideSpeed, render_paths. simpl.
    match goal with
    | |- context [startAnimation_effect ?P ?g] =>
        pose proof (startAnimation_effect_fields P g) as (_&_&_&_&_&->&_&_&_&->);
        assert (paths P = []) as -> by (simpl; by rewrite Hr)
    end.
    split_and!; try done. by destruct (gRef (graph h)).
  - unfold inputStartNode, render_labels in Hstep.
    rewrite clearAnimation_eq in Hstep.
    destruct (drawGraph _ _) as [st|] eqn:Hd; simplify_eq/=.
    apply drawGraph_fields in Hd as (_&_&_&_&Ha'&_&Hn&_). simpl in *.
    rewrite startAnimation_empty; [|by rewrite Hr]. by rewrite Ha', Hn.
  - unfold inputGoalNode, render_labels in Hstep.
    rewrite clearAnimation_eq in Hstep.
    destruct (drawGraph _ _) as [st|] eqn:Hd; simplify_eq/=.
    apply drawGraph_fields in Hd as (_&_&_&_&Ha'&_&Hn&_). simpl in *.
    rewrite startAnimation_empty; [|by rewrite Hr]. by rewrite Ha', Hn.
  - unfold intervalFires, tick. rewrite Ha, Nat.eqb_refl. by split_and!.
  - unfold windowResize in Hstep.
    destruct (resize _ _ _) as [g|] eqn:Hz; simplify_eq/=.
    pose proof (resize_animationRef _ _ _ _ Hz) as Ha'.
    simpl in Ha'. rewrite Hr in Ha'. simpl in Ha'.
    apply resize_fields in Hz as (_&_&_&_&_&Hn&_). by split_and!.
Qed.

(** X13.  A search that resolves with an empty path sequence never ends:
    whatever the user does next, short of choosing another algorithm, the
    host stays searching (Run Search, Generate New Graph and Back to Initial
    Graph stay disabled), no interval is armed and the completion callback
    is not invoked. *)
Theorem X13_empty_result_keeps_searching h es h' :
  is_Some (gRef (graph h)) →
  isSearching h = false → app_startNode h ≠ "" → app_goalNode h ≠ "" →
  forallb keeps_search es = true →
  app_run (RunSearchClick :: SearchResolved [] :: es) h = Some h' →
  isSearching h' = true ∧ searchResult h' = Some [] ∧
  animationRef (graph h') = None ∧
  completeCalls (graph h') = completeCalls (graph h).
Proof.
  intros Hg Hs Hsn Hgn Hes.
  set (h1 := handleSearch h).
  set (h2 := searchResolved [] h1).
  assert (h1 = render_paths (set_pending (S (pending h))
                               (setIsSearching true (resetSearch h)))) as Hh1.
  { unfold h1, handleSearch. rewrite Hs.
    by rewrite !bool_decide_false by done. }
  assert (h2 = render_paths
            {| graphData := graphData h1; searchResult := Some [];
               speed := speed h1; app_algorithm := app_algorithm h1;
               app_startNode := app_startNode h1; app_goalNode := app_goalNode h1;
               app_isPaused := app_isPaused h1; isSearching := isSearching h1;
               pending := pending h; graph := graph h1 |}) as Hh2.
  { unfold h2, searchResolved. by rewrite Hh1. }
  assert (isSearching h2 = true ∧ searchResult h2 = Some [] ∧
          animationRef (graph h2) = None ∧
          completeCalls (graph h2) = completeCalls (graph h)) as H2.
  { assert (isSearching h1 = true) as Hs1 by by rewrite Hh1.
    assert (completeCalls (graph h1) = completeCalls (graph h)) as Hn1.
    { rewrite Hh1. unfold render_paths.
      cbn [graph set_graph set_pending setIsSearching resetSearch].
      match goal with
      | |- context [startAnimation_effect ?P ?g] =>
          pose proof (startAnimation_effect_fields P g) as (_&_&_&_&_&->&_)
      end.
      by pose proof (resetVisualization_handler_fields (graph_props h) (graph h))
        as (_&_&_&_&_&->&_). }
    rewrite Hh2. unfold render_paths. cbn [graph set_graph isSearching searchResult].
    match goal with
    | |- context [startAnimation_effect ?P ?g] =>
        pose proof (startAnimation_effect_fields P g) as (_&_&_&_&_&->&_&_&_&->)
    end.
    split_and!; try done. by destruct (gRef (graph h1)). }
  change (app_run (RunSearchClick :: SearchResolved [] :: es) h)
    with (app_run es h2).
  clearbody h2. clear Hh2 Hh1 h1. revert h2 H2.
  induction es as [|e es IH]; intros h2 (Hs2&Hr2&Ha2&Hn2); simpl.
  - intros [= <-]. done.
  - simpl in Hes. apply andb_prop in Hes as [He Hes].
    destruct (app_step e h2) as [h3|] eqn:Hstep; simpl; [|done].
    destruct (empty_result_step e h2 h3 He Hs2 Hr2 Ha2 Hstep) as (?&?&?&Hn3).
    apply IH; [done|]. split_and!; try done. congruence.
Qed.

Lemma X13_empty_result_keeps_searching_witness :
  ∃ h', app_run [RunSearchClick; SearchResolved []; IntervalFires; PauseClick;
                 SpeedSlide 500; RunSearchClick; IntervalFires] app_scenario
          = Some h' ∧
        isSearching h' = true.
Proof.
  eexists. split; [vm_compute; reflexivity|].
  match goal with
  | |- isSearching ?h' = true =>
      destruct (X13_empty_result_keeps_searching app_scenario
                  [IntervalFires; PauseClick; SpeedSlide 500; RunSearchClick;
                   IntervalFires] h') as [H _];
        [ by eexists | reflexivity | discriminate | discriminate
        | reflexivity | vm_compute; reflexivity | exact H ]
  end.
Defined.

(** ** Pausing and the completion callback, seen from the host *)

(** A firing either leaves the count of invocations alone, or adds one to
    it, completes the run and disarms the interval. *)
Lemma tick_calls P st :
  completeCalls (tick P st) = completeCalls st ∨
  completeCalls (tick P st) = S (completeCalls st) ∧
  isComplete (tick P st) = true ∧ animationRef (tick P st) = None.
Proof.
  unfold tick. destruct (animationRef st) as [t|]; [|by left].
  destruct (t_isPaused t) eqn:Hp; [rewrite animate_paused by done; by left|].
  pose proof (animate_fields P t st Hp) as (_&_&Hadv&Hcpl).
  destruct (decide (S (currentIndexRef st) < length (paths P))) as [H|H].
  - left. by destruct (Hadv H) as (_&_&_&->).
  - destruct Hcpl as (_&->&->&->); [lia|].
    destruct (onAnimationComplete P); [by right|by left].
Qed.

(** X14.  Seen from the host, pausing and resuming cannot make the callback
    fire twice: from a host that is searching with a run that is not
    complete, any sequence of firings and clicks on the pause button invokes
    the completion callback at most once, and it has been invoked exactly
    when the host has stopped searching; from then on the pause button is
    disabled and no interval is armed. *)
Theorem X14_host_completes_once h es h' :
  isSearching h = true → isComplete (graph h) = false →
  forallb plays es = true →
  app_run es h = Some h' →
  (isSearching h' = true ∧ isComplete (graph h') = false ∧
   completeCalls (graph h') = completeCalls (graph h)) ∨
  (isSearching h' = false ∧ isComplete (graph h') = true ∧
   animationRef (graph h') = None ∧
   completeCalls (graph h') = S (completeCalls (graph h))).
Proof.
  intros Hs Hc Hes Hrun.
  assert (∀ c h1 h2,
    forallb plays es = true → app_run es h1 = Some h2 →
    (isSearching h1 = true ∧ isComplete (graph h1) = false ∧
     completeCalls (graph h1) = c) ∨
    (isSearching h1 = false ∧ isComplete (graph h1) = true ∧
     animationRef (graph h1) = None ∧ completeCalls (graph h1) = S c) →
    (isSearching h2 = true ∧ isComplete (graph h2) = false ∧
     completeCalls (graph h2) = c) ∨
    (isSearching h2 = false ∧ isComplete (graph h2) = true ∧
     animationRef (graph h2) = None ∧ completeCalls (graph h2) = S c)) as Hgen.
  { clear. intros c. induction es as [|e es IH]; simpl; intros h1 h2 Hes Hrun Hinv.
    - by simplify_eq.
    - apply andb_prop in Hes as [He Hes].
      destruct (app_step e h1) as [h3|] eqn:Hstep; simplify_eq/=.
      apply (IH h3 h2 Hes Hrun). clear IH Hrun.
      destruct e; simpl in *; try done; simplify_eq.
      + (* PauseClick *)
        unfold handlePauseToggle.
        destruct Hinv as [(Hs&Hc&Hn)|(Hs&Hc&Ha&Hn)]; rewrite Hs; [|by right].
        left. simpl.
        pose proof (togglePause_fields (graph_props h1) (graph h1))
          as (_&_&->&_&_&->&_). done.
      + (* IntervalFires *)
        unfold intervalFires.
        destruct Hinv as [(Hs&Hc&Hn)|(Hs&Hc&Ha&Hn)].
        * destruct (tick_calls (graph_props h1) (graph h1)) as [Heq|(Hplus&Hc'&Ha')].
          -- rewrite Heq, Nat.eqb_refl. left. simpl. split_and!; try done.
             ++ destruct (isComplete (tick (graph_props h1) (graph h1))) eqn:E;
                  [|done].
                destruct (tick_completes (graph_props h1) (graph h1) eq_refl E);
                  [congruence|lia].
             ++ congruence.
          -- rewrite Hplus.
             replace (S (completeCalls (graph h1)) =? completeCalls (graph h1))
               with false by (symmetry; apply Nat.eqb_neq; lia).
             right. unfold render_host, handleAnimationComplete. simpl.
             destruct (searchResult h1) eqn:Er; simpl.
             ++ split_and!; try done. congruence.
             ++ unfold render_paths. simpl.
                match goal with
                | |- context [startAnimation_effect ?P ?g] =>
                    pose proof (startAnimation_effect_fields P g)
                      as (_&_&->&_&_&->&_&_&_&->)
                end.
                simpl. rewrite Er. simpl.
                split_and!; try done; [|congruence].
                by destruct (gRef (tick (graph_props h1) (graph h1))).
        * right. unfold tick. rewrite Ha, Nat.eqb_refl. simpl. done. }
  apply (Hgen (completeCalls (graph h)) h h' Hes Hrun). by left.
Qed.

Lemma X14_host_completes_once_witness :
  ∃ h1 h',
    app_run [RunSearchClick; SearchResolved [("A", "B"); ("A", "D")]]
            app_scenario = Some h1 ∧
    app_run [IntervalFires; IntervalFires; PauseClick; PauseClick;
             IntervalFires] h1 = Some h' ∧
    completeCalls (graph h') = S (completeCalls (graph h1)).
Proof.
  eexists _, _. split; [vm_compute; reflexivity|].
  split; [vm_compute; reflexivity|].
  match goal with
  | |- completeCalls (graph ?h') = S (completeCalls (graph ?h1)) =>
      destruct (X14_host_completes_once h1
                  [IntervalFires; IntervalFires; PauseClick; PauseClick;
                   IntervalFires] h')
        as [(Hs&_)|(_&_&_&Hn)];
        [ reflexivity | reflexivity | reflexivity | vm_compute; reflexivity
        | vm_compute in Hs; discriminate
        | exact Hn ]
  end.
Defined.

(** ** When drawing fails *)

Lemma draw_link_is_Some P l :
  is_Some (draw_link P l) ↔
    source l < length (nodes (data P)) ∧ target l < length (nodes (data P)).
Proof.
  unfold draw_link. rewrite <- !lookup_lt_is_Some. split.
  - intros [e He].
    destruct (nodes (data P) !! source l); simplify_eq/=.
    destruct (nodes (data P) !! target l); simplify_eq/=.
    split; by eexists.
  - intros [[a ->] [b ->]]. by eexists.
Qed.

(** X15.  Mounting and resizing draw the graph, and drawing fails (the
    component throws) exactly when there is at least one node and some link
    names a position outside the node array: with no node at all nothing is
    drawn and nothing fails, whatever the links. *)
Theorem X15_drawing_defined P :
  (is_Some (mount P) ↔ nodes (data P) = [] ∨ links_in_range P) ∧
  (∀ d st, is_Some (resize P d st) ↔ nodes (data P) = [] ∨ links_in_range P).
Proof.
  assert (is_Some (mapM (draw_link P) (links (data P))) ↔ links_in_range P) as Hm.
  { rewrite mapM_is_Some. unfold links_in_range.
    split; intros H; eapply Forall_impl; try exact H;
      intros l Hl; simpl in *; by apply draw_link_is_Some. }
  split; [|intros d st]; unfold mount, resize, drawGraph, zoom_effect; simpl;
    (destruct (nodes (data P)) as [|n ns] eqn:Hn; simpl;
      [ split; [by left|by eexists]
      | rewrite <- Hm; split;
          [ intros [st' Hst]; right;
            destruct (mapM (draw_link P) (links (data P))); [by eexists|done]
          | intros [Hx|[ls Hls]]; [done|]; rewrite Hls; by eexists ] ]).
Qed.

(** ** Closures and the paused flag *)

(** X16.  The interval callback never runs with stale values: in every state
    of a run, an armed interval was created with the current paused flag and
    the current dimensions, over a non-empty path sequence and an existing
    group; so while the component is paused a firing of the interval changes
    nothing at all. *)
Theorem X16_no_stale_closure P st :
  reachable P st →
  (∀ t, animationRef st = Some t →
        t_isPaused t = isPaused st ∧ t_dimensions t = dimensions st ∧
        paths P ≠ [] ∧ is_Some (gRef st)) ∧
  (isPaused st = true → tick P st = st).
Proof.
  intros (He&_&Ht&Hg)%reachable_inv. split.
  - intros t Ha. destruct (Ht t Ha) as [? ?]. split_and!; try done.
    intros E. destruct (He E) as (?&_). congruence.
  - intros Hp. unfold tick. destruct (animationRef st) as [t|]; [|done].
    apply animate_paused. destruct (Ht t eq_refl) as [-> _]. done.
Qed.

Lemma X16_no_stale_closure_witness :
  ∃ st0 st, mount scenario_fan = Some st0 ∧
    run scenario_fan [Tick; TogglePause] st0 = Some st ∧
    isPaused st = true ∧ tick scenario_fan st = st.
Proof.
  eexists _, _. split; [vm_compute; reflexivity|].
  split; [vm_compute; reflexivity|]. split; [vm_compute; reflexivity|].
  match goal with
  | |- tick _ ?s = _ =>
      destruct (X16_no_stale_closure scenario_fan s) as [_ H];
        [ eexists _, [Tick; TogglePause];
          split; [vm_compute; reflexivity | vm_compute; reflexivity] |];
      apply H; vm_compute; reflexivity
  end.
Defined.

(** X17.  In every state of a run, every circle that carries the start label
    is filled with the start colour: neither a firing, nor a pause toggle,
    nor a reset, nor a resize gives the start node another colour. *)
Theorem X17_start_colour_kept P st g :
  reachable P st → gRef st = Some g →
  ∀ c, c ∈ circles g → label_is (data_label c) (startNode P) = true →
       fill c = red.
Proof.
  intros Hr Hg c Hc Hl.
  pose proof (start_colour_kept P st Hr g Hg) as Hall.
  unfold start_red in Hall. rewrite Forall_forall in Hall. by apply Hall.
Qed.

Lemma X17_start_colour_kept_witness :
  ∃ st0 g c, mount scenario_fan = Some st0 ∧
    gRef (ticks scenario_fan 3 st0) = Some g ∧
    circles g !! 0 = Some c ∧ data_label c = "A" ∧ fill c = red.
Proof.
  eexists _, _, _. split; [vm_compute; reflexivity|].
  split; [vm_compute; reflexivity|]. split; [vm_compute; reflexivity|].
  split; [reflexivity|].
  eapply (X17_start_colour_kept scenario_fan
            (ticks scenario_fan 3 (default init_state (mount scenario_fan))));
    [ eexists _, [Tick; Tick; Tick];
      split; [vm_compute; reflexivity | vm_compute; reflexivity]
    | vm_compute; reflexivity
    | vm_compute; apply list_elem_of_here
    | reflexivity ].
Defined.

Lemma X15_drawing_defined_witness :
  is_Some (mount scenario_chain) ∧
  ¬ is_Some (mount {| data := {| nodes := [nd 0 "A"]; links := [lk 0 1] |};
                      paths := []; algorithm := "dfs";
                      startNode := None; goalNode := None;
                      onAnimationComplete := false |}).
Proof.
  split.
  - apply (X15_drawing_defined scenario_chain). right.
    unfold links_in_range. simpl. repeat constructor.
  - intros H. apply X15_drawing_defined in H as [H|H]; [discriminate|].
    unfold links_in_range in H. simpl in H.
    apply Forall_cons in H as [[_ H] _]. simpl in H. lia.
Defined.

(** ** The step that is being shown *)

Lemma tick_currentStep P st t :
  animationRef st = Some t → t_isPaused t = false →
  currentStep (tick P st) =
    match paths P !! currentIndexRef st with
    | Some p => if resolves P p then Some (step_text p) else currentStep st
    | None => currentStep st
    end.
Proof.
  intros Ha Hp. unfold tick, resolves.
  rewrite Ha, animate_currentStep by done.
  destruct (paths P !! currentIndexRef st) as [[src tgt]|] eqn:Hi; simpl.
  - destruct (find_node P src) as [sN|] eqn:Hs;
      [destruct (find_node P tgt) as [tN|] eqn:Ht|].
    + unfold apply_step. rewrite Hi, Hs, Ht. done.
    + rewrite apply_step_unresolved; [done|].
      intros ?? Hx. rewrite Hi in Hx. simplify_eq. by right.
    + rewrite apply_step_unresolved; [done|].
      intros ?? Hx. rewrite Hi in Hx. simplify_eq. by left.
  - rewrite apply_step_unresolved; [done|]. intros ?? Hx. by rewrite Hi in Hx.
Qed.

(** X18.  After n firings from the start of a run the step text is the text
    of the last of the first n steps that resolves ("From Node: s to Node:
    t"), and the text the run started with when none of them does: a step
    that names an unknown label leaves the text of an earlier step on
    display. *)
Theorem X18_step_text_after_ticks P st0 n :
  run_start P st0 →
  currentStep (ticks P n st0) =
    last_text P (take n (paths P)) (currentStep st0).
Proof.
  intros Hs. pose proof Hs as (Hne&_&_&_&_&t&Ha&Hp).
  induction n as [|n IH]; [by rewrite take_0|].
  change (ticks P (S n) st0) with (tick P (ticks P n st0)).
  destruct (ticks_from_start P st0 n Hs) as (Hi&_&_&Han).
  destruct (Nat.leb_spec (length (paths P)) n) as [Hle|Hlt].
  - unfold tick. rewrite Han, IH. by rewrite !take_ge by lia.
  - rewrite Ha in Han. rewrite (tick_currentStep _ _ t Han Hp), Hi, IH.
    replace (n `min` (length (paths P) - 1)) with n by lia.
    destruct (lookup_lt_is_Some_2 _ _ Hlt) as [p Hp'].
    rewrite Hp', (take_S_r _ _ _ Hp'). unfold last_text.
    rewrite fold_left_app. done.
Qed.

Lemma X18_step_text_after_ticks_witness :
  ∃ st0, mount scenario_fan = Some st0 ∧
         currentStep (ticks scenario_fan 2 st0) = Some "From Node: A to Node: C".
Proof.
  eexists. split; [vm_compute; reflexivity|].
  match goal with
  | |- currentStep (ticks _ _ ?s) = _ =>
      rewrite (X18_step_text_after_ticks scenario_fan s 2);
        [ vm_compute; reflexivity
        | apply mount_run_start; [vm_compute; reflexivity | discriminate] ]
  end.
Defined.

(** X19.  The step that a firing applies is shown as applied whatever the
    algorithm: when the step at the index resolves, after the firing the
    first line that carries its id (if there is one) is active and the first
    circle that carries the id of its target is red; the de-highlight
    selection of the same firing, which runs first, cannot undo either. *)
Theorem X19_applied_step_is_shown P t st src tgt sN tN :
  animationRef st = Some t → t_isPaused t = false →
  paths P !! currentIndexRef st = Some (src, tgt) →
  find_node P src = Some sN → find_node P tgt = Some tN →
  stroke_of (index sN) (index tN) (tick P st) =
    (λ _, red) <$> stroke_of (index sN) (index tN) st ∧
  fill_of (index tN) (tick P st) = (λ _, red) <$> fill_of (index tN) st.
Proof.
  intros Ha Hp Hi Hs Ht.
  destruct (gRef st) as [g|] eqn:Hg.
  - split; [|by eapply tick_fills_target].
    unfold stroke_of, tick.
    destruct (apply_step_resolved P t st g src tgt sN tN Hg Hi Hs Ht) as [Hg' _].
    rewrite Ha, animate_gRef, Hg', Hg by done. simpl.
    rewrite line_stroke_select_same.
    rewrite dehighlight_prev_key.
    destruct (prev_key P (currentIndexRef st) src) as [[a b]|] eqn:Hk.
    + destruct (decide (a = index sN ∧ b = index tN)) as [[-> ->]|Hne].
      * rewrite line_stroke_select_same.
        by destruct (line_stroke (index sN) (index tN) (lines g)).
      * rewrite line_stroke_select_other by done.
        by destruct (line_stroke (index sN) (index tN) (lines g)).
    + by destruct (line_stroke (index sN) (index tN) (lines g)).
  - assert (gRef (tick P st) = None) as Hg'.
    { unfold tick. rewrite Ha, animate_gRef by done.
      unfold apply_step. rewrite Hi, Hs, Ht. simpl.
      by rewrite !with_g_gRef, Hg. }
    unfold stroke_of, fill_of. by rewrite Hg', Hg.
Qed.

Lemma X19_applied_step_is_shown_witness :
  ∃ st0, mount scenario_fan = Some st0 ∧
    stroke_of 0 2 (tick scenario_fan (ticks scenario_fan 1 st0)) = Some red ∧
    fill_of 2 (tick scenario_fan (ticks scenario_fan 1 st0)) = Some red.
Proof.
  eexists. split; [vm_compute; reflexivity|].
  match goal with
  | |- stroke_of _ _ (tick _ ?s) = _ ∧ _ =>
      destruct (X19_applied_step_is_shown scenario_fan
                  {| t_isPaused := false;
                     t_dimensions := {| width := 900; height := 700 |} |}
                  s "A" "C" (nd 0 "A") (nd 2 "C")) as [H1 H2];
        [ vm_compute; reflexivity | reflexivity | vm_compute; reflexivity
        | vm_compute; reflexivity | vm_compute; reflexivity |];
      change (index (nd 0 "A")) with 0 in H1;
      change (index (nd 2 "C")) with 2 in H1, H2;
      rewrite H1, H2
  end.
  split; vm_compute; reflexivity.
Defined.

(** X20.  What [resetVisualization] leaves of the interval: called on a
    component that is not paused it leaves none armed (the controller is
    idle at index 0); called on a paused component over a non-empty path
    sequence it leaves one armed and unpaused at index 0, because the change
    of the paused flag runs the effect of [startAnimation] again: the run
    starts over. *)
Theorem X20_reset_and_interval P st :
  is_Some (gRef st) →
  (isPaused st = false → animationRef (resetVisualization P st) = None) ∧
  (isPaused st = true → paths P ≠ [] →
     animationRef (resetVisualization P st) =
       Some {| t_isPaused := false; t_dimensions := dimensions st |} ∧
     currentIndexRef (resetVisualization P st) = 0 ∧
     isComplete (resetVisualization P st) = false ∧
     isPaused (resetVisualization P st) = false).
Proof.
  intros Hg.
  pose proof (resetVisualization_handler_fields P st) as (Hd&_&Hc&Hp&Hi&_&Ha&Hg').
  split.
  - intros Hnp. unfold resetVisualization. by rewrite Hnp.
  - intros Hpa Hne. unfold resetVisualization. rewrite Hpa.
    pose proof (startAnimation_effect_fields P (resetVisualization_handler P st))
      as (_&_&->&->&->&_&_&_&_&->).
    destruct (Hg' Hg) as [g ->]. rewrite Hp, Hd.
    split_and!; try done. by destruct (paths P).
Qed.

Lemma X20_reset_and_interval_witness :
  ∃ st0 st, mount scenario_fan = Some st0 ∧
    run scenario_fan [Tick; TogglePause] st0 = Some st ∧
    t_isPaused <$> animationRef (resetVisualization scenario_fan st) = Some false.
Proof.
  eexists _, _. split; [vm_compute; reflexivity|].
  split; [vm_compute; reflexivity|].
  match goal with
  | |- _ <$> animationRef (resetVisualization _ ?s) = _ =>
      destruct (X20_reset_and_interval scenario_fan s) as [_ H];
        [ vm_compute; by eexists |];
      destruct H as [-> _]; [vm_compute; reflexivity | discriminate |]
  end.
  reflexivity.
Defined.
